(** * Playing-cards API and library CLI: a shallow embedding

    Two programs are modelled here.

    - [CardStore] follows [exp4.2.js], the Express application that keeps
      a deck of playing cards and a discard pile in two module-level
      arrays.  Every route handler becomes a function from the store to a
      new store and an HTTP response.
    - [BookStore] follows the interactive library CLI, which keeps a list
      of books and an id counter and talks to the user through
      [readline].  Handlers run in a small monad that threads the store,
      the pending input lines and the console output.

    Arrays are lists; an assignment to an array slot is stdpp's list
    insert; a JavaScript value tested for truthiness is an [option]
    whose falsy inhabitants are spelled out. *)

From stdpp Require Import base numbers strings sets list pretty.

(** ** JavaScript values shared by both programs *)

(** A string-valued property that may be absent from a JSON body or a
    query string.  [truthy] is the test JavaScript performs in
    [if (v)] and [v || d]: [undefined] and the empty string are falsy,
    every other string is truthy. *)
Definition truthy (v : option string) : option string :=
  match v with
  | Some s => if bool_decide (s = "") then None else Some s
  | None => None
  end.

(** [Array.prototype.some]. *)
Definition some {A} (p : A → bool) (arr : list A) : bool := existsb p arr.

(** [arr.push(x)] on the array held in a variable. *)
Definition push {A} (arr : list A) (x : A) : list A := arr ++ [x].

Module CardStore.

Record Card := mkCard { id : string; rank : string; suit : string }.

#[global] Instance Card_eq_dec : EqDecision Card.
Proof. solve_decision. Defined.

Definition SUITS : list string := ["Clubs"; "Diamonds"; "Hearts"; "Spades"].
Definition RANKS : list string :=
  ["A"; "2"; "3"; "4"; "5"; "6"; "7"; "8"; "9"; "10"; "J"; "Q"; "K"].

(** [makeDeck]: the two nested [for ... of] loops, each iteration pushing
    one card onto the local array. *)
Definition makeDeck : list Card :=
  foldl (λ deck suit,
    foldl (λ deck rank,
      push deck {| id := rank +:+ "-" +:+ suit; rank := rank; suit := suit |})
      deck RANKS)
    [] SUITS.

(** The in-memory store: the two module-level [let] bindings. *)
Record Store := mkStore { deck : list Card; discardPile : list Card }.

Definition initial : Store := {| deck := makeDeck; discardPile := [] |}.

(** What a handler sends back: a status code and a JSON body. *)
Inductive Body :=
| BError (error : string)
| BCard (card : Card)
| BCards (cards : list Card)
| BRemoved (removed : Card)
| BStatus (status : string) (remaining : nat)
| BDrawn (drawn : list Card) (remaining : nat)
| BStats (remaining discard : nat).

Record Response := mkResponse { code : nat; body : Body }.

(** [c => c.id === x] *)
Definition id_is (x : string) (c : Card) : bool := bool_decide (c.(id) = x).

(** [findCardIndexById]: [Array.prototype.findIndex] answers the first
    index whose card has the id, and [-1], here [None], when there is
    none. *)
Definition findCardIndexById (d : list Card) (x : string) : option nat :=
  fst <$> list_find (λ c, c.(id) = x) d.

(** One draw of [Math.random()]: a number in the half-open interval from
    0 to 1, kept as the fraction [rnum / (rnum + rgap + 1)], which is
    below 1 whatever the two fields are. *)
Record Rand := mkRand { rnum : nat; rgap : nat }.

(** [Math.floor(r * k)], for a whole number [k]. *)
Definition floor_times (r : Rand) (k : nat) : nat :=
  (rnum r * k) `div` (rnum r + rgap r + 1).

(** [[arr[i], arr[j]] = [arr[j], arr[i]]].  Both reads happen before the
    two writes.  The loop below only ever calls it with both indices
    inside the array (see [floor_times_le]); outside, where JavaScript
    would store [undefined], the model leaves the array alone. *)
Definition swap {A} (arr : list A) (i j : nat) : list A :=
  match arr !! i, arr !! j with
  | Some ai, Some aj => <[j := ai]> (<[i := aj]> arr)
  | _, _ => arr
  end.

(** The loop of [shuffleArray], counting [i] down to 1.  [random k] is
    the result of the [k]-th call of [Math.random()]; [calls] counts the
    calls made so far. *)
Fixpoint shuffle_loop {A} (random : nat → Rand) (calls i : nat)
    (arr : list A) : list A :=
  match i with
  | 0 => arr
  | S i' =>
      let j := floor_times (random calls) (i + 1) in
      shuffle_loop random (S calls) i' (swap arr i j)
  end.

Definition shuffleArray {A} (random : nat → Rand) (arr : list A) : list A :=
  shuffle_loop random 0 (length arr - 1) arr.

(** *** Route handlers *)

(** [POST /cards] *)
Definition addCard (rank suit id : option string) (st : Store)
    : Store * Response :=
  match truthy rank, truthy suit with
  | Some r, Some s =>
      let cardId := default (r +:+ "-" +:+ s) (truthy id) in
      if some (id_is cardId) st.(deck) || some (id_is cardId) st.(discardPile)
      then (st, mkResponse 409 (BError "A card with that id already exists"))
      else
        let newCard := mkCard cardId r s in
        (mkStore (push st.(deck) newCard) st.(discardPile),
         mkResponse 201 (BCard newCard))
  | _, _ => (st, mkResponse 400 (BError "rank and suit are required"))
  end.

(** [PUT /cards/:id].  [card] is the object stored at [deck[idx]], so the
    two field assignments change the deck at once, before [newId] is
    looked at: [deck1] is the deck as it stands after them.  The index
    comes from [findCardIndexById], so [deck[idx]] is always there
    ([findCardIndexById_Some]) and the second [None] branch is never
    taken. *)
Definition updateCard (x : string) (rank suit newId : option string)
    (st : Store) : Store * Response :=
  match findCardIndexById st.(deck) x with
  | None => (st, mkResponse 404 (BError "Card not in deck"))
  | Some idx =>
      match st.(deck) !! idx with
      | None => (st, mkResponse 404 (BError "Card not in deck"))
      | Some card =>
          let card1 :=
            match truthy rank with
            | Some r => mkCard card.(id) r card.(CardStore.suit)
            | None => card
            end in
          let card2 :=
            match truthy suit with
            | Some s => mkCard card1.(id) card1.(CardStore.rank) s
            | None => card1
            end in
          let deck1 := <[idx := card2]> st.(deck) in
          match truthy newId with
          | Some n =>
              if some (id_is n) deck1 || some (id_is n) st.(discardPile)
              then (mkStore deck1 st.(discardPile),
                    mkResponse 409 (BError "newId already exists"))
              else
                let card3 := mkCard n card2.(CardStore.rank)
                    card2.(CardStore.suit) in
                (mkStore (<[idx := card3]> deck1) st.(discardPile),
                 mkResponse 200 (BCard card3))
          | None =>
              (mkStore deck1 st.(discardPile), mkResponse 200 (BCard card2))
          end
      end
  end.

(** [DELETE /cards/:id]: [deck.splice(idx, 1)] takes the card out,
    [discardPile.push] puts it on the pile.  As in [updateCard], the
    second [None] branch is never taken. *)
Definition removeCard (x : string) (st : Store) : Store * Response :=
  match findCardIndexById st.(deck) x with
  | None => (st, mkResponse 404 (BError "Card not found in deck"))
  | Some idx =>
      match st.(deck) !! idx with
      | None => (st, mkResponse 404 (BError "Card not found in deck"))
      | Some removed =>
          (mkStore (delete idx st.(deck)) (push st.(discardPile) removed),
           mkResponse 200 (BRemoved removed))
      end
  end.

(** [POST /shuffle] *)
Definition shuffle (random : nat → Rand) (st : Store) : Store * Response :=
  let deck' := shuffleArray random st.(deck) in
  (mkStore deck' st.(discardPile),
   mkResponse 200 (BStatus "shuffled" (length deck'))).

(** The [for] loop of [POST /draw]: [k] iterations are left ([n - i] in
    the source); each one shifts the first card off the deck and pushes it
    on [drawn] and on the discard pile, and the loop stops early on an
    empty deck. *)
Fixpoint draw_loop (k : nat) (d pile drawn : list Card)
    : list Card * list Card * list Card :=
  match k with
  | 0 => (d, pile, drawn)
  | S k' =>
      match d with
      | [] => (d, pile, drawn)
      | card :: d' => draw_loop k' d' (push pile card) (push drawn card)
      end
  end.

(** [POST /draw].  [requested] is the value of
    [Number(req.query.n || req.body.n || 1)] when that value is a whole
    number, which is what the route is meant for; a count with a
    fraction, or one that is not a number, is outside this model. *)
Definition draw (requested : Z) (st : Store) : Store * Response :=
  let n := Z.max 1 requested in
  if bool_decide (length st.(deck) = 0)
  then (st, mkResponse 400 (BError "Deck is empty"))
  else
    let '(d, pile, drawn) := draw_loop (Z.to_nat n) st.(deck) st.(discardPile)
        [] in
    (mkStore d pile, mkResponse 200 (BDrawn drawn (length d))).

(** [GET /peek]: [deck.slice(0, n)], for a whole number [requested] as in
    [draw]. *)
Definition peek (requested : Z) (st : Store) : Store * Response :=
  let n := Z.max 1 requested in
  (st, mkResponse 200 (BCards (take (Z.to_nat n) st.(deck)))).

(** [POST /reset] *)
Definition reset (st : Store) : Store * Response :=
  let deck' := makeDeck in
  (mkStore deck' [], mkResponse 200 (BStatus "reset" (length deck'))).

(** [GET /stats] *)
Definition stats (st : Store) : Store * Response :=
  (st, mkResponse 200 (BStats (length st.(deck)) (length st.(discardPile)))).

(** The mutating and reading operations of the store, as requests. *)
Inductive Request :=
| AddCard (rank suit id : option string)
| UpdateCard (x : string) (rank suit newId : option string)
| RemoveCard (x : string)
| Shuffle (random : nat → Rand)
| Draw (requested : Z)
| Peek (requested : Z)
| Reset.

Definition handle (req : Request) (st : Store) : Store * Response :=
  match req with
  | AddCard r s i => addCard r s i st
  | UpdateCard x r s n => updateCard x r s n st
  | RemoveCard x => removeCard x st
  | Shuffle random => shuffle random st
  | Draw n => draw n st
  | Peek n => peek n st
  | Reset => reset st
  end.

(** The invariant of the data model: no two cards of the deck and the
    discard pile together carry the same id. *)
Definition ids (st : Store) : list string :=
  id <$> (st.(deck) ++ st.(discardPile)).

Definition unique_ids (st : Store) : Prop := NoDup (ids st).

(** *** Vocabulary of the statements *)

(** A body property is missing when it is absent or the empty string. *)
Definition missing (v : option string) : Prop := v = None ∨ v = Some "".

(** The value a field holds after an update that may provide it. *)
Definition field_after (v : option string) (old : string) : string :=
  match v with
  | Some s => if decide (s = "") then old else s
  | None => old
  end.

(** [card] sits at [idx] and is the first card of [d] with the id [x]. *)
Definition first_with_id (d : list Card) (x : string) (idx : nat)
    (card : Card) : Prop :=
  d !! idx = Some card ∧ card.(id) = x ∧
  ∀ j c, d !! j = Some c → j < idx → c.(id) ≠ x.

End CardStore.

(** ** The library CLI *)

Module BookStore.

(** *** Strings

    A string is kept as the bytes of its UTF-8 encoding.  What depends on
    the Unicode tables of the language ([trim], [split] on white space,
    [toLowerCase]) is a parameter of the model, declared with the numbers
    below; joining and searching act on the bytes, where they agree with
    JavaScript on well-formed text. *)

(** [arr.join(sep)] *)
Fixpoint join (sep : string) (arr : list string) : string :=
  match arr with
  | [] => ""
  | [x] => x
  | x :: arr' => x +:+ sep +:+ join sep arr'
  end.

(** [s.includes(q)], on the bytes: for well-formed text a string occurs
    in another exactly when its bytes occur in the bytes of the other. *)
Fixpoint includes (s q : string) : bool :=
  if String.prefix q s then true
  else match s with
       | String _ s' => includes s' q
       | EmptyString => false
       end.

(** [Array.prototype.findIndex], with [None] for [-1]. *)
Fixpoint findIndex {A} (p : A → bool) (arr : list A) : option nat :=
  match arr with
  | [] => None
  | x :: arr' => if p x then Some 0 else S <$> findIndex p arr'
  end.

Section Runtime.

(** *** Numbers

    A JavaScript number is [NaN], an integer, or one of the remaining
    doubles (the finite fractions and the two infinities), which the
    program stores and prints but never computes with; their type is left
    open.  The id counter starts at 3 and moves by one, far below the
    point, 2^53, where a double stops holding every integer, so integer
    arithmetic on ids is exact. *)
Context {nonint : Type}.

Inductive number :=
| NaN
| Int (z : Z)
| NonInt (x : nonint).

(** [Number(s)], the conversion of a string to a number, and the
    conversion of a number to a string in [String(x)] and in a template
    literal: both belong to the language, not to the program. *)
Variable Number : string → number.
Variable ToString : number → string.

(** [s.trim()], [s.split(/\s+/)] and [s.toLowerCase()].  Their white
    space and their letter cases are those of Unicode; like [Number]
    they belong to the language and are left open, so that what is
    proved holds of the functions JavaScript has. *)
Variable trim : string → string.
Variable split : string → list string.
Variable toLowerCase : string → string.

(** Truthiness of a number: [NaN] and zero are falsy. *)
Definition number_truthy (x : number) : bool :=
  match x with
  | NaN => false
  | Int z => negb (z =? 0)%Z
  | NonInt _ => true
  end.

(** A value that may be [undefined], tested as [if (v)]. *)
Definition truthy_number (v : option number) : option number :=
  match v with
  | Some x => if number_truthy x then Some x else None
  | None => None
  end.

(** *** The store *)

Record Book := mkBook {
  id : Z;
  title : string;
  author : string;
  year : option number;
  isbn : option string
}.

Definition sample_books : list Book :=
  [ mkBook 1 "The Pragmatic Programmer" "Andrew Hunt" (Some (Int 1999)) None;
    mkBook 2 "Clean Code" "Robert C. Martin" (Some (Int 2008)) None ].

(** [books.length ? Math.max(...books.map(b => b.id)) + 1 : 1] *)
Definition seedNextId (bs : list Book) : Z :=
  match id <$> bs with
  | [] => 1
  | x :: xs => foldl Z.max x xs + 1
  end.

(** One row of [console.table]; [None] in [ryear] is the [""] of
    [b.year || ""]. *)
Record Row := mkRow {
  rid : Z; rtitle : string; rauthor : string; ryear : option number
}.

(** What the program writes. *)
Inductive Output :=
| Banner
| HelpText
| LinePrompt
| Ask (prompt : string)
| Log (text : string)
| LogBook (label : string) (b : Book)
| Table (rows : list Row)
| Goodbye.

(** The program and its terminal: the two module-level variables, the
    lines the user has still to type, what has been written so far, and
    whether the readline interface is closed, at which point the process
    has exited. *)
Record World := mkWorld {
  books : list Book;
  nextId : Z;
  stdin : list string;
  console : list Output;
  closed : bool
}.

Definition start (input : list string) : World :=
  mkWorld sample_books (seedNextId sample_books) input
    [Banner; HelpText; LinePrompt] false.

(** *** Handlers as computations

    A handler runs in a world and either completes with a value or is
    left waiting at a prompt when the input ends, in which case readline
    closes and the process exits; the world it leaves behind is kept in
    both cases. *)
Definition IO (A : Type) : Type := World → option A * World.

Definition ret {A} (a : A) : IO A := λ w, (Some a, w).

Definition bind {A B} (m : IO A) (k : A → IO B) : IO B :=
  λ w, match m w with
       | (Some a, w') => k a w'
       | (None, w') => (None, w')
       end.

Notation "'do' x <- m ; k" := (bind m (λ x, k))
  (at level 10, x name, m at level 100, k at level 200,
   format "'[v' 'do'  x  <-  m ; '/' k ']'").
Notation "m ;; k" := (bind m (λ _, k))
  (at level 100, k at level 200, right associativity).

(** [console.log], [console.table] and the prompt of [rl.prompt()]. *)
Definition write (o : Output) : IO unit :=
  λ w, (Some tt, mkWorld w.(books) w.(nextId) w.(stdin) (push w.(console) o)
                   w.(closed)).

(** The ['close'] event: the farewell is printed and the process exits. *)
Definition hangup (w : World) : World :=
  mkWorld w.(books) w.(nextId) w.(stdin) (push w.(console) Goodbye) true.

(** [await question(prompt)]: the prompt is written and the next line the
    user types is the answer. *)
Definition question (prompt : string) : IO string :=
  λ w, let w' := mkWorld w.(books) w.(nextId) w.(stdin)
                   (push w.(console) (Ask prompt)) w.(closed) in
       match w.(stdin) with
       | line :: rest =>
           (Some line, mkWorld w'.(books) w'.(nextId) rest w'.(console)
                         w'.(closed))
       | [] => (None, hangup w')
       end.

(** Reading and assigning the variable [books]. *)
Definition get_books : IO (list Book) := λ w, (Some w.(books), w).

Definition set_books (bs : list Book) : IO unit :=
  λ w, (Some tt, mkWorld bs w.(nextId) w.(stdin) w.(console) w.(closed)).

(** [nextId++]: the value before the increment. *)
Definition post_increment_nextId : IO Z :=
  λ w, (Some w.(nextId),
        mkWorld w.(books) (w.(nextId) + 1) w.(stdin) w.(console) w.(closed)).

(** [rl.close()] *)
Definition rl_close : IO unit := λ w, (Some tt, hangup w).

Definition printHelp : IO unit := write HelpText.

Definition row_of (b : Book) : Row :=
  mkRow b.(id) b.(title) b.(author) (truthy_number b.(year)).

Definition listBooks (arr : list Book) : IO unit :=
  if decide (length arr = 0) then write (Log "No books available.")
  else write (Table (row_of <$> arr)).

Definition cmdAdd : IO unit :=
  do answer <- question "Title: ";
  let title' := trim answer in
  match truthy (Some title') with
  | None => write (Log "Title is required. Aborting add.")
  | Some title' =>
      do answer <- question "Author: ";
      let author' := default "Unknown" (truthy (Some (trim answer))) in
      do answer <- question "Year (optional): ";
      let yearRaw := trim answer in
      let year' :=
        match truthy (Some yearRaw) with
        | Some y => Some (Number y)
        | None => None
        end in
      do answer <- question "ISBN (optional): ";
      let isbn' := truthy (Some (trim answer)) in
      do i <- post_increment_nextId;
      let book := mkBook i title' author' None None in
      let book :=
        match truthy_number year' with
        | Some y => mkBook book.(id) book.(title) book.(author) (Some y)
                      book.(isbn)
        | None => book
        end in
      let book :=
        match isbn' with
        | Some s => mkBook book.(id) book.(title) book.(author) book.(year)
                      (Some s)
        | None => book
        end in
      do bs <- get_books;
      set_books (push bs book) ;;
      write (LogBook "Added:" book)
  end.

(** [b.title && b.title.toLowerCase().includes(q)] and its three
    companions. *)
Definition matches (q : string) (b : Book) : bool :=
  match truthy (Some b.(title)) with
  | Some t => includes (toLowerCase t) q
  | None => false
  end
  || match truthy (Some b.(author)) with
     | Some a => includes (toLowerCase a) q
     | None => false
     end
  || match truthy b.(isbn) with
     | Some i => includes (toLowerCase i) q
     | None => false
     end
  || match truthy_number b.(year) with
     | Some y => includes (ToString y) q
     | None => false
     end.

Definition findBooks (term : string) (bs : list Book) : list Book :=
  let q := toLowerCase term in
  List.filter (matches q) bs.

Definition cmdFind (arg : string) : IO unit :=
  match truthy (Some arg) with
  | None => write (Log "Usage: find <term>")
  | Some arg =>
      do bs <- get_books;
      let results := findBooks arg bs in
      if decide (length results = 0) then write (Log "No matches.")
      else listBooks results
  end.

(** [b => b.id === id], the id of a book being an integer. *)
Definition id_is (x : number) (b : Book) : bool :=
  match x with
  | Int z => bool_decide (b.(id) = z)
  | _ => false
  end.

(** [cmdUpdate].  [books.find] is [findIndex] followed by the read of the
    slot, which is always there ([findIndex_lt]); the object it answers
    is the one in the array, so the four assignments at the end write
    into the slot [idx] of [books]. *)
Definition cmdUpdate (arg : string) : IO unit :=
  let x := Number arg in
  if negb (number_truthy x) then write (Log "Usage: update <id>")
  else
    do bs <- get_books;
    match findIndex (id_is x) bs with
    | None => write (Log "Book not found.")
    | Some idx =>
        match bs !! idx with
        | None => write (Log "Book not found.")
        | Some book =>
            write (LogBook "Updating book:" book) ;;
            do answer <- question ("Title [" +:+ book.(title) +:+ "]: ");
            let title' := trim answer in
            do answer <- question ("Author [" +:+ book.(author) +:+ "]: ");
            let author' := trim answer in
            do answer <- question
              ("Year [" +:+ from_option ToString "" (truthy_number book.(year))
                 +:+ "]: ");
            let yearRaw := trim answer in
            do answer <- question
              ("ISBN [" +:+ default "" (truthy book.(isbn)) +:+ "]: ");
            let isbn' := trim answer in
            let book :=
              match truthy (Some title') with
              | Some t => mkBook book.(id) t book.(author) book.(year)
                            book.(isbn)
              | None => book
              end in
            let book :=
              match truthy (Some author') with
              | Some a => mkBook book.(id) book.(title) a book.(year)
                            book.(isbn)
              | None => book
              end in
            let book :=
              match truthy (Some yearRaw) with
              | Some y => mkBook book.(id) book.(title) book.(author)
                            (Some (Number y)) book.(isbn)
              | None => book
              end in
            let book :=
              match truthy (Some isbn') with
              | Some i => mkBook book.(id) book.(title) book.(author)
                            book.(year) (Some i)
              | None => book
              end in
            do bs <- get_books;
            set_books (<[idx := book]> bs) ;;
            write (LogBook "Saved:" book)
        end
    end.

Definition cmdRemove (arg : string) : IO unit :=
  let x := Number arg in
  if negb (number_truthy x) then write (Log "Usage: remove <id>")
  else
    do bs <- get_books;
    match findIndex (id_is x) bs with
    | None => write (Log "Book not found.")
    | Some idx =>
        match bs !! idx with
        | None => write (Log "Book not found.")
        | Some removed =>
            set_books (delete idx bs) ;;
            write (LogBook "Removed:" removed)
        end
    end.

Definition cmdClear : IO unit :=
  do answer <- question "Are you sure you want to clear all books? (yes): ";
  let answer := toLowerCase (trim answer) in
  if decide (answer = "yes") then set_books [] ;; write (Log "Cleared.")
  else write (Log "Aborted.").

(** [handleLine]: the [switch] on the lower-cased first word; every case
    but [exit] falls out to [rl.prompt()]. *)
Definition handleLine (line : string) : IO unit :=
  let words := split (trim line) in
  let cmd := default "" (truthy (head words)) in
  let arg := join " " (tail words) in
  let c := toLowerCase cmd in
  if decide (c = "") then write LinePrompt
  else if decide (c = "help") then printHelp ;; write LinePrompt
  else if decide (c = "list") then
    (do bs <- get_books; listBooks bs) ;; write LinePrompt
  else if decide (c = "add") then cmdAdd ;; write LinePrompt
  else if decide (c = "find") then cmdFind arg ;; write LinePrompt
  else if decide (c = "update") then cmdUpdate arg ;; write LinePrompt
  else if decide (c = "remove") then cmdRemove arg ;; write LinePrompt
  else if decide (c = "clear") then cmdClear ;; write LinePrompt
  else if decide (c = "exit") then rl_close
  else
    write (Log "Unknown command. Type 'help' to see available commands.") ;;
    write LinePrompt.

(** One event of the readline interface: the next line goes to
    [handleLine], the end of the input closes the interface, and nothing
    happens once the process has exited. *)
Definition on_event (w : World) : World :=
  if w.(closed) then w
  else match w.(stdin) with
       | line :: rest =>
           (handleLine line
              (mkWorld w.(books) w.(nextId) rest w.(console) w.(closed))).2
       | [] => hangup w
       end.

(** The session after [n] events. *)
Fixpoint session (n : nat) (w : World) : World :=
  match n with
  | 0 => w
  | S n' => session n' (on_event w)
  end.

(** *** Vocabulary of the statements *)

Definition ids (w : World) : list Z := id <$> w.(books).

(** Every id of the store is below the counter. *)
Definition below_counter (w : World) : Prop :=
  ∀ b, b ∈ w.(books) → (b.(id) < w.(nextId))%Z.

(** From [w] to [w'] the counter has not gone down and every id that is
    new in [w'] is at or above the counter of [w]. *)
Definition extends (w w' : World) : Prop :=
  (w.(nextId) ≤ w'.(nextId))%Z ∧
  ∀ i, i ∈ ids w' → i ∈ ids w ∨ (w.(nextId) ≤ i)%Z.

(** The year field as the specification words it: there exactly when the
    answer is not empty, and then the answer converted to a number. *)
Definition year_as_specified (yearRaw : string) : option number :=
  if decide (yearRaw = "") then None else Some (Number yearRaw).

(** The year field as [cmdAdd] sets it. *)
Definition year_as_stored (yearRaw : string) : option number :=
  if decide (yearRaw = "") then None
  else if number_truthy (Number yearRaw) then Some (Number yearRaw)
  else None.

(** The book [cmdAdd] is to append for the four answers, given how the
    year field comes out of its answer. *)
Definition book_of_answers (year_of : string → option number) (i : Z)
    (t a y s : string) : Book :=
  mkBook i (trim t)
    (if decide (trim a = "") then "Unknown" else trim a)
    (year_of (trim y))
    (if decide (trim s = "") then None else Some (trim s)).

(** [cmdAdd] as the specification words it, in a world where the user
    answers [t], [a], [y] and [s]. *)
Definition cmdAdd_as_specified (w : World) (t a y s : string) : Prop :=
  (cmdAdd w).2.(books) =
    w.(books) ++ [book_of_answers year_as_specified w.(nextId) t a y s] ∧
  (cmdAdd w).2.(nextId) = (w.(nextId) + 1)%Z.

(** A computation keeps the counter ahead of the store. *)
Definition safe {A} (m : IO A) : Prop :=
  ∀ w, below_counter w → below_counter (m w).2 ∧ extends w (m w).2.

End Runtime.

Arguments number : clear implicits.
Arguments Book : clear implicits.
Arguments World : clear implicits.

(** The three string functions for the closed examples, on ASCII text:
    white space is tab, line feed, vertical tab, form feed, carriage
    return and space, and the letters with two cases are A to Z.  On
    strings of ASCII characters, which is all the examples use, they
    answer what JavaScript answers. *)
Fixpoint trimStart (s : string) : string :=
  match s with
  | String c s' => if Ascii.is_space c then trimStart s' else s
  | EmptyString => EmptyString
  end.

Definition trimAscii (s : string) : string :=
  String.rev (trimStart (String.rev (trimStart s))).

(** [s.split(/\s+/)] on a trimmed ASCII string: the words of [s], and the
    one empty word when [s] is empty. *)
Definition splitAscii (s : string) : list string :=
  if decide (s = "") then [""] else String.words s.

Definition lower_char (c : Ascii.ascii) : Ascii.ascii :=
  let n := Ascii.N_of_ascii c in
  if ((65 <=? n) && (n <=? 90))%N then Ascii.ascii_of_N (n + 32) else c.

Fixpoint toLowerCaseAscii (s : string) : string :=
  match s with
  | String c s' => String (lower_char c) (toLowerCaseAscii s')
  | EmptyString => EmptyString
  end.

(** A [Number] for the closed examples.  On a string of decimal digits,
    the empty one included, it answers the integer JavaScript answers,
    and on a word of letters [NaN], as JavaScript does; the examples feed
    it nothing else.  (Signs, fractions, exponents, radix prefixes and
    "Infinity" it does not read.) *)
Fixpoint decimal (acc : Z) (s : string) : option Z :=
  match s with
  | EmptyString => Some acc
  | String c s' =>
      match Ascii.is_nat c with
      | Some d => decimal (10 * acc + Z.of_nat d) s'
      | None => None
      end
  end.

Definition NumberDec (s : string) : number Empty_set :=
  match decimal 0 s with
  | Some z => Int z
  | None => NaN
  end.

(** The matching conversion of a number to a string. *)
Definition ToStringDec (x : number Empty_set) : string :=
  match x with
  | NaN => "NaN"
  | Int z => pretty z
  | NonInt e => match e with end
  end.

End BookStore.

(** ** The card store: the reading routes *)

Module CardQueries.
Import CardStore.

(** [Array.prototype.find]: the first element passing the test, if any. *)
Definition find {A} (p : A → bool) (arr : list A) : option A :=
  List.find p arr.

(** [GET /cards/:id]: [deck.find(...) || discardPile.find(...)].  A card
    is an object, hence truthy, so the pile is searched exactly when the
    deck has no card with the id. *)
Definition getCard (x : string) (st : Store) : Store * Response :=
  let card :=
    match find (id_is x) st.(deck) with
    | Some c => Some c
    | None => find (id_is x) st.(discardPile)
    end in
  match card with
  | None => (st, mkResponse 404 (BError "Card not found"))
  | Some c => (st, mkResponse 200 (BCard c))
  end.

Section Listing.

(** [s.toLowerCase()], whose letter cases are those of Unicode: a
    parameter, as in the library CLI. *)
Variable toLowerCase : string → string.

(** [c => c.suit.toLowerCase() === String(suit).toLowerCase()] and the
    same test on the rank. *)
Definition suit_is (s : string) (c : Card) : Prop :=
  toLowerCase c.(CardStore.suit) = toLowerCase s.

Definition rank_is (r : string) (c : Card) : Prop :=
  toLowerCase c.(CardStore.rank) = toLowerCase r.

#[local] Instance suit_is_dec s c : Decision (suit_is s c).
Proof. unfold suit_is. apply _. Defined.

#[local] Instance rank_is_dec r c : Decision (rank_is r c).
Proof. unfold rank_is. apply _. Defined.

(** [GET /cards?suit=&rank=]: a copy of the deck, filtered by each query
    parameter that is given. *)
Definition listCards (suit rank : option string) (st : Store)
    : Store * Response :=
  let results := st.(deck) in
  let results :=
    match truthy suit with
    | Some s => filter (suit_is s) results
    | None => results
    end in
  let results :=
    match truthy rank with
    | Some r => filter (rank_is r) results
    | None => results
    end in
  (st, mkResponse 200 (BCards results)).

End Listing.

(** *** Vocabulary of the statements *)

(** The number of cards the store holds, deck and discard pile
    together. *)
Definition total (st : Store) : nat :=
  length st.(deck) + length st.(discardPile).

(** All the cards of the store. *)
Definition cards (st : Store) : list Card := st.(deck) ++ st.(discardPile).

(** The requests that only move cards about. *)
Definition moves_only (req : Request) : bool :=
  match req with
  | RemoveCard _ | Shuffle _ | Draw _ | Peek _ => true
  | AddCard _ _ _ | UpdateCard _ _ _ _ | Reset => false
  end.

(** A stream of random draws with one more draw in front. *)
Definition cons_random (r : Rand) (random : nat → Rand) : nat → Rand :=
  λ k, match k with 0 => r | S k' => random k' end.

End CardQueries.

(** ** The library CLI: further vocabulary *)

Module BookVocabulary.
Import BookStore.

Section Vocabulary.

Context {nonint : Type}.
Variable Number : string → number nonint.
Variable trim : string → string.
Variable split : string → list string.
Variable toLowerCase : string → string.

(** The command word [handleLine] switches on, and the argument it hands
    to the command. *)
Definition command_word (line : string) : string :=
  toLowerCase (default "" (truthy (head (split (trim line))))).

Definition argument (line : string) : string :=
  join " " (tail (split (trim line))).

(** [b] sits at [idx] and is the first book of [bs] with the id [z]. *)
Definition first_book_with_id (bs : list (Book nonint)) (z : Z) (idx : nat)
    (b : Book nonint) : Prop :=
  bs !! idx = Some b ∧ id b = z ∧
  ∀ j b', bs !! j = Some b' → j < idx → id b' ≠ z.

(** A book after the four answers of [update]: an empty answer keeps the
    field, any other answer replaces it. *)
Definition book_after_update (b : Book nonint) (t a y s : string)
    : Book nonint :=
  mkBook (id b)
    (if decide (trim t = "") then title b else trim t)
    (if decide (trim a = "") then author b else trim a)
    (if decide (trim y = "") then year b else Some (Number (trim y)))
    (if decide (trim s = "") then isbn b else Some (trim s)).

(** The ways the store can differ after a command: not at all; by one
    book appended under the next id, the counter moving up by one; by one
    book overwritten by a book with the same id; by one book taken out;
    by all books taken out. *)
Inductive store_step : World nonint → World nonint → Prop :=
| step_same w w' :
    books w' = books w → nextId w' = nextId w → store_step w w'
| step_add w w' b :
    books w' = books w ++ [b] → id b = nextId w →
    nextId w' = (nextId w + 1)%Z → store_step w w'
| step_update w w' idx b0 b :
    books w !! idx = Some b0 → id b = id b0 →
    books w' = <[idx := b]> (books w) → nextId w' = nextId w →
    store_step w w'
| step_remove w w' idx :
    idx < length (books w) → books w' = delete idx (books w) →
    nextId w' = nextId w → store_step w w'
| step_clear w w' :
    books w' = [] → nextId w' = nextId w → store_step w w'.

(** A computation changes the store by one such step at most. *)
Definition one_step {A} (m : IO (nonint:=nonint) A) : Prop :=
  ∀ w, store_step w (m w).2.

(** A computation leaves the store alone. *)
Definition store_kept {A} (m : IO (nonint:=nonint) A) : Prop :=
  ∀ w, books (m w).2 = books w ∧ nextId (m w).2 = nextId w.

(** A computation reads its input from the front and only adds to the
    output. *)
Definition orderly {A} (m : IO (nonint:=nonint) A) : Prop :=
  ∀ w, (∃ used, stdin w = used ++ stdin (m w).2) ∧
       (∃ out, console (m w).2 = console w ++ out).

(** The ids of the store are pairwise distinct and below the counter. *)
Definition tidy (w : World nonint) : Prop :=
  below_counter w ∧ NoDup (ids w).

End Vocabulary.

End BookVocabulary.

(** ** The card store: properties *)

Module CardStoreSpec.
Import CardStore.

(** *** Facts about the helpers *)

Lemma truthy_Some v s : truthy v = Some s ↔ v = Some s ∧ s ≠ "".
Proof.
  destruct v as [t|]; simpl; [|naive_solver].
  case_bool_decide; naive_solver.
Qed.

Lemma truthy_None v : truthy v = None ↔ v = None ∨ v = Some "".
Proof.
  destruct v as [t|]; simpl; [|naive_solver].
  case_bool_decide; naive_solver.
Qed.

Lemma some_id_is d x : some (id_is x) d = true ↔ x ∈ id <$> d.
Proof.
  unfold some, id_is. rewrite existsb_exists, list_elem_of_fmap.
  split.
  - intros (c & Hin & Hc). apply bool_decide_eq_true in Hc.
    exists c. split; [done|]. by apply list_elem_of_In.
  - intros (c & -> & Hin). exists c. split; [by apply list_elem_of_In|].
    by apply bool_decide_eq_true.
Qed.

Lemma some_id_is_false d x : some (id_is x) d = false ↔ x ∉ id <$> d.
Proof. rewrite <- some_id_is. by destruct (some _ _). Qed.

(** The index answered by [findCardIndexById] is inside the deck, holds a
    card with the id, and is the first such index. *)
Lemma findCardIndexById_Some d x i :
  findCardIndexById d x = Some i ↔
  ∃ c, d !! i = Some c ∧ c.(id) = x ∧
       ∀ j c', d !! j = Some c' → j < i → c'.(id) ≠ x.
Proof.
  unfold findCardIndexById. split.
  - destruct (list_find _ d) as [[i' c]|] eqn:Hf; [|done].
    intros [= <-]. apply list_find_Some in Hf. naive_solver.
  - intros (c & Hc & Hx & Hfirst).
    assert (list_find (λ c, c.(id) = x) d = Some (i, c)) as ->; [|done].
    apply list_find_Some. naive_solver.
Qed.

Lemma findCardIndexById_None d x :
  findCardIndexById d x = None ↔ x ∉ id <$> d.
Proof.
  unfold findCardIndexById. rewrite fmap_None, list_find_None.
  rewrite list_elem_of_fmap, Forall_forall. split.
  - intros Hall (c & -> & Hin). by apply (Hall c).
  - intros Hno c Hin Hc. apply Hno. by exists c.
Qed.

(** [Math.floor(Math.random() * (i + 1))] is one of [0 .. i]. *)
Lemma floor_times_le r i : floor_times r (i + 1) ≤ i.
Proof.
  unfold floor_times. apply Nat.lt_succ_r.
  apply Nat.Div0.div_lt_upper_bound. nia.
Qed.

(** Exchanging two slots rearranges the array and nothing else. *)
Lemma swap_Permutation {A} (arr : list A) i j : swap arr i j ≡ₚ arr.
Proof.
  unfold swap.
  destruct (arr !! i) as [ai|] eqn:Hi; [|done].
  destruct (arr !! j) as [aj|] eqn:Hj; [|done].
  pose proof (lookup_lt_Some _ _ _ Hi) as Hli.
  pose proof (lookup_lt_Some _ _ _ Hj) as Hlj.
  apply Permutation_inj. split; [by rewrite !length_insert|].
  exists (λ k, if decide (k = i) then j else if decide (k = j) then i else k).
  split.
  - intros a b. repeat case_decide; intros; simplify_eq; done.
  - intros k. destruct (decide (k = j)) as [->|Hkj].
    + rewrite list_lookup_insert_eq by (by rewrite length_insert).
      case_decide; by simplify_eq.
    + rewrite list_lookup_insert_ne by done.
      destruct (decide (k = i)) as [->|Hki].
      * by rewrite list_lookup_insert_eq.
      * by rewrite list_lookup_insert_ne.
Qed.

Lemma shuffle_loop_Permutation {A} random calls i (arr : list A) :
  shuffle_loop random calls i arr ≡ₚ arr.
Proof.
  revert calls arr. induction i as [|i IH]; intros calls arr; simpl; [done|].
  rewrite IH. apply swap_Permutation.
Qed.

Lemma shuffleArray_Permutation {A} random (arr : list A) :
  shuffleArray random arr ≡ₚ arr.
Proof. apply shuffle_loop_Permutation. Qed.

(** The loop of [shuffleArray] reads and writes inside the array only:
    [i] runs below the length and [j] is at most [i]. *)
Lemma shuffle_swap_in_range {A} (arr : list A) r i :
  i < length arr →
  ∃ ai aj, arr !! i = Some ai ∧ arr !! floor_times r (i + 1) = Some aj ∧
    swap arr i (floor_times r (i + 1)) =
      <[floor_times r (i + 1) := ai]> (<[i := aj]> arr).
Proof.
  intros Hi. pose proof (floor_times_le r i) as Hj.
  destruct (lookup_lt_is_Some_2 arr i Hi) as [ai Hai].
  destruct (lookup_lt_is_Some_2 arr (floor_times r (i + 1))) as [aj Haj];
      [lia|].
  exists ai, aj. unfold swap. by rewrite Hai, Haj.
Qed.

(** What the loop of [POST /draw] computes, in closed form. *)
Lemma draw_loop_take_drop k d pile drawn :
  draw_loop k d pile drawn = (drop k d, pile ++ take k d, drawn ++ take k d).
Proof.
  revert d pile drawn. induction k as [|k IH]; intros d pile drawn; simpl.
  - by rewrite drop_0, !app_nil_r.
  - destruct d as [|card d]; simpl; [by rewrite !app_nil_r|].
    rewrite IH. unfold push. by rewrite <- !app_assoc.
Qed.

Lemma makeDeck_length : length makeDeck = 52.
Proof. reflexivity. Qed.

Lemma makeDeck_NoDup : NoDup (id <$> makeDeck).
Proof. apply (bool_decide_unpack _). vm_compute. exact I. Qed.

(** Overwriting one slot with a value that occurs nowhere keeps a list
    free of duplicates. *)
Lemma NoDup_insert_fresh {A} (l : list A) i x :
  NoDup l → x ∉ l → NoDup (<[i:=x]> l).
Proof.
  intros Hnd Hx. destruct (l !! i) as [y|] eqn:Hi.
  - rewrite insert_take_drop by (by eapply lookup_lt_Some).
    pose proof (take_drop_middle l i y Hi) as E.
    revert E. generalize (take i l) (drop (S i) l). intros l1 l2 <-.
    rewrite NoDup_app, NoDup_cons in Hnd. rewrite NoDup_app, NoDup_cons.
    set_solver.
  - rewrite list_insert_ge; [done|]. by apply lookup_ge_None.
Qed.

(** Every index the loop may pick is the floor of some random draw, so
    quantifying over the draws covers every run of the shuffle. *)
Lemma floor_times_onto i j :
  j ≤ i → floor_times (mkRand j (i - j)) (i + 1) = j.
Proof.
  intros Hj. unfold floor_times; simpl.
  replace (j + (i - j) + 1) with (i + 1) by lia.
  apply Nat.div_mul. lia.
Qed.

Lemma ids_mkStore d p : ids (mkStore d p) = (id <$> d) ++ (id <$> p).
Proof. unfold ids; simpl. apply fmap_app. Qed.

Lemma ids_eq st : ids st = (id <$> st.(deck)) ++ (id <$> st.(discardPile)).
Proof. destruct st. apply ids_mkStore. Qed.

Lemma elem_of_card_ids x st :
  x ∈ ids st ↔ x ∈ id <$> st.(deck) ∨ x ∈ id <$> st.(discardPile).
Proof. rewrite ids_eq. apply elem_of_app. Qed.

(** The test both [POST /cards] and [PUT /cards/:id] make before they
    hand out an id. *)
Lemma id_taken d p x :
  some (id_is x) d || some (id_is x) p = true ↔ x ∈ ids (mkStore d p).
Proof.
  rewrite orb_true_iff, !some_id_is, ids_mkStore, elem_of_app. done.
Qed.

Lemma id_free d p x :
  some (id_is x) d || some (id_is x) p = false ↔ x ∉ ids (mkStore d p).
Proof. rewrite <- id_taken. by destruct (_ || _). Qed.

(** Writing a card with the same id into its own slot leaves the ids of
    the deck as they were. *)
Lemma fmap_id_insert_same (d : list Card) (idx : nat) card card' :
  d !! idx = Some card → card'.(id) = card.(id) →
  id <$> <[idx := card']> d = id <$> d.
Proof.
  intros Hidx Hid. rewrite list_fmap_insert, Hid.
  apply list_insert_id. by rewrite list_lookup_fmap, Hidx.
Qed.

(** *** Id uniqueness, one operation at a time *)

Lemma addCard_unique r s i st : unique_ids st → unique_ids (addCard r s i st).1.
Proof.
  intros Hu. unfold addCard.
  destruct (truthy r) as [r'|]; [|done].
  destruct (truthy s) as [s'|]; [|done].
  destruct (_ || _) eqn:Hfree; [done|]. simpl.
  apply id_free in Hfree. unfold unique_ids in *.
  rewrite ids_mkStore in *. unfold push. simpl in *.
  rewrite fmap_app, <- app_assoc. simpl.
  rewrite <- Permutation_middle. apply NoDup_cons.
  split; [done|]. by rewrite <- ids_eq.
Qed.

Lemma updateCard_unique x r s n st :
  unique_ids st → unique_ids (updateCard x r s n st).1.
Proof.
  intros Hu. unfold updateCard.
  destruct (findCardIndexById _ _) as [idx|]; [|done].
  destruct (deck st !! idx) as [card|] eqn:Hidx; [|done].
  set (card1 := match truthy r with Some _ => _ | None => _ end).
  set (card2 := match truthy s with Some _ => _ | None => _ end).
  assert (card2.(id) = card.(id)) as Hid.
  { subst card2 card1. by destruct (truthy r), (truthy s). }
  assert (id <$> <[idx := card2]> (deck st) = id <$> deck st) as Hsame
    by by apply fmap_id_insert_same with card.
  assert (unique_ids (mkStore (<[idx := card2]> (deck st)) (discardPile st)))
    as Hu1.
  { unfold unique_ids. rewrite ids_mkStore, Hsame, <- ids_eq. done. }
  destruct (truthy n) as [n'|]; [|done].
  destruct (_ || _) eqn:Hfree; [done|]. simpl.
  apply id_free in Hfree. unfold unique_ids in *.
  rewrite ids_mkStore in *.
  rewrite list_fmap_insert. simpl.
  rewrite <- insert_app_l.
  - by apply NoDup_insert_fresh.
  - rewrite length_fmap, length_insert. by eapply lookup_lt_Some.
Qed.

Lemma removeCard_unique x st : unique_ids st → unique_ids (removeCard x st).1.
Proof.
  intros Hu. unfold removeCard.
  destruct (findCardIndexById _ _) as [idx|]; [|done].
  destruct (deck st !! idx) as [removed|] eqn:Hidx; [|done]. simpl.
  unfold unique_ids, ids, push in *. simpl.
  rewrite app_assoc, <- Permutation_cons_append.
  change (removed :: delete idx (deck st) ++ discardPile st)
    with ((removed :: delete idx (deck st)) ++ discardPile st).
  by rewrite <- (delete_Permutation _ _ _ Hidx).
Qed.

Lemma shuffle_unique random st :
  unique_ids st → unique_ids (shuffle random st).1.
Proof.
  unfold unique_ids, ids, shuffle. simpl.
  by rewrite shuffleArray_Permutation.
Qed.

Lemma draw_unique n st : unique_ids st → unique_ids (draw n st).1.
Proof.
  intros Hu. unfold draw. case_bool_decide; [done|].
  rewrite draw_loop_take_drop. simpl.
  unfold unique_ids, ids in *. simpl.
  rewrite (Permutation_app_comm (discardPile st)), app_assoc.
  rewrite (Permutation_app_comm (drop _ _)), take_drop. done.
Qed.

Lemma reset_unique st : unique_ids (reset st).1.
Proof.
  unfold unique_ids, reset. cbn [fst]. rewrite ids_mkStore.
  change (id <$> []) with (@nil string). rewrite app_nil_r.
  apply makeDeck_NoDup.
Qed.

Lemma missing_truthy v : missing v ↔ truthy v = None.
Proof. by rewrite truthy_None. Qed.

Lemma field_after_truthy v old : field_after v old = default old (truthy v).
Proof.
  destruct v as [s|]; simpl; [|done].
  by case_decide; case_bool_decide.
Qed.

Lemma first_with_id_find d x idx card :
  first_with_id d x idx card ↔
  findCardIndexById d x = Some idx ∧ d !! idx = Some card.
Proof.
  rewrite findCardIndexById_Some. unfold first_with_id. split.
  - intros (Hc & Hx & Hfirst). split; [|done]. by exists card.
  - intros [(c & Hc & Hx & Hfirst) Hcard]. by simplify_eq.
Qed.

Lemma first_with_id_exists d x :
  x ∈ id <$> d → ∃ idx card, first_with_id d x idx card.
Proof.
  intros Hin. destruct (findCardIndexById d x) as [idx|] eqn:Hf.
  - pose proof Hf as (c & Hc & _)%findCardIndexById_Some.
    exists idx, c. by apply first_with_id_find.
  - by apply findCardIndexById_None in Hf.
Qed.

(** [PUT /cards/:id] once the card is found: the deck with the provided
    rank and suit written into the card, then what [newId] leads to. *)
Lemma updateCard_found x rank suit newId st idx card :
  first_with_id st.(deck) x idx card →
  let written :=
    mkCard card.(id) (field_after rank card.(CardStore.rank))
      (field_after suit card.(CardStore.suit)) in
  let deck1 := <[idx := written]> st.(deck) in
  updateCard x rank suit newId st =
    match truthy newId with
    | Some n =>
        if bool_decide (n ∈ ids st)
        then (mkStore deck1 st.(discardPile),
              mkResponse 409 (BError "newId already exists"))
        else
          let renamed := mkCard n written.(CardStore.rank)
              written.(CardStore.suit) in
          (mkStore (<[idx := renamed]> st.(deck)) st.(discardPile),
           mkResponse 200 (BCard renamed))
    | None => (mkStore deck1 st.(discardPile), mkResponse 200 (BCard written))
    end.
Proof.
  intros Hfirst written deck1.
  pose proof Hfirst as [Hfind Hidx]%first_with_id_find.
  unfold updateCard. rewrite Hfind, Hidx.
  set (card1 := match truthy rank with Some _ => _ | None => _ end).
  set (card2 := match truthy suit with Some _ => _ | None => _ end).
  assert (card2 = written) as ->.
  { subst card2 card1 written. rewrite !field_after_truthy.
    destruct card. by destruct (truthy rank), (truthy suit). }
  fold deck1. destruct (truthy newId) as [n|]; [|done].
  assert (id <$> deck1 = id <$> deck st) as Hsame
    by by apply fmap_id_insert_same with card.
  destruct (_ || _) eqn:Hfree.
  - apply id_taken in Hfree. rewrite ids_mkStore, Hsame, <- ids_eq in Hfree.
    by rewrite bool_decide_eq_true_2.
  - apply id_free in Hfree. rewrite ids_mkStore, Hsame, <- ids_eq in Hfree.
    rewrite bool_decide_eq_false_2 by done.
    subst deck1. by rewrite list_insert_insert_eq.
Qed.

(** *** The operations of the card store *)

(** C1.  Every operation of the card store (add, update, remove, shuffle,
    draw, peek, reset) keeps card ids pairwise distinct across the deck
    and the discard pile: from a store whose ids are all different, the
    store after the operation has all ids different too. *)
Theorem handle_preserves_unique_ids (req : Request) (st : Store) :
  unique_ids st → unique_ids (handle req st).1.
Proof.
  intros Hu. destruct req; cbn [handle].
  - by apply addCard_unique.
  - by apply updateCard_unique.
  - by apply removeCard_unique.
  - by apply shuffle_unique.
  - by apply draw_unique.
  - done.
  - apply reset_unique.
Qed.

Lemma handle_preserves_unique_ids_witness :
  unique_ids initial ∧
  unique_ids (handle (UpdateCard "A-Clubs" None None (Some "Joker")) initial).1.
Proof.
  assert (unique_ids initial) as Hu.
  { apply (bool_decide_unpack _). vm_compute. exact I. }
  split; [exact Hu|].
  exact (handle_preserves_unique_ids
           (UpdateCard "A-Clubs" None None (Some "Joker")) initial Hu).
Defined.

(** C2.  After [reset], whatever the two sequences held before, the deck
    has exactly 52 cards with pairwise distinct ids, in suit-major,
    rank-minor order: the suits Clubs, Diamonds, Hearts, Spades in that
    order, each with the ranks A, 2 .. 10, J, Q, K in that order, the card
    of a rank and a suit carrying the id "<rank>-<suit>"; and the discard
    pile is empty. *)
Theorem reset_fresh_deck (st : Store) :
  let st' := (reset st).1 in
  length st'.(deck) = 52 ∧
  NoDup (id <$> st'.(deck)) ∧
  (∀ (i j : nat) (s r : string),
     ["Clubs"; "Diamonds"; "Hearts"; "Spades"] !! i = Some s →
     ["A"; "2"; "3"; "4"; "5"; "6"; "7"; "8"; "9"; "10"; "J"; "Q"; "K"] !! j
       = Some r →
     st'.(deck) !! (13 * i + j) = Some (mkCard (r +:+ "-" +:+ s) r s)) ∧
  st'.(discardPile) = [].
Proof.
  simpl. split_and!.
  - apply makeDeck_length.
  - apply makeDeck_NoDup.
  - intros i j s r Hi Hj.
    do 4 (destruct i as [|i];
      [do 13 (destruct j as [|j]; [simplify_eq/=; reflexivity|]); done |]).
    done.
  - done.
Qed.

(** C3.  For every [n ≥ 1], [draw n] fails with status 400, deck empty,
    exactly when the deck is empty.  Otherwise it takes the first
    [min n (length deck)] cards off the front of the deck in their order,
    appends them in that order to the end of the discard pile, and answers
    the drawn cards with the number of cards left; the two sequences
    together hold as many cards as before. *)
Theorem draw_spec (n : Z) (st : Store) :
  (1 ≤ n)%Z →
  let k := Z.to_nat n `min` length st.(deck) in
  ((draw n st).2.(code) = 400 ↔ st.(deck) = []) ∧
  (st.(deck) = [] →
     draw n st = (st, mkResponse 400 (BError "Deck is empty"))) ∧
  (st.(deck) ≠ [] →
     draw n st =
       (mkStore (drop k st.(deck)) (st.(discardPile) ++ take k st.(deck)),
        mkResponse 200 (BDrawn (take k st.(deck)) (length st.(deck) - k))) ∧
     length (draw n st).1.(deck) + length (draw n st).1.(discardPile) =
       length st.(deck) + length st.(discardPile)).
Proof.
  intros Hn k.
  assert (Z.max 1 n = n) as Hmax by lia.
  assert (take k (deck st) = take (Z.to_nat n) (deck st)) as Htake.
  { subst k. destruct (decide (Z.to_nat n ≤ length (deck st))).
    - by rewrite Nat.min_l.
    - rewrite Nat.min_r by lia. rewrite !take_ge; [done| lia | lia]. }
  assert (drop k (deck st) = drop (Z.to_nat n) (deck st)) as Hdrop.
  { subst k. destruct (decide (Z.to_nat n ≤ length (deck st))).
    - by rewrite Nat.min_l.
    - rewrite Nat.min_r by lia. rewrite !drop_ge; [done| lia | lia]. }
  assert (length (drop k (deck st)) = length (deck st) - k) as Hlen
    by apply length_drop.
  unfold draw. rewrite Hmax, draw_loop_take_drop. simpl.
  rewrite <- Htake, <- Hdrop, Hlen.
  case_bool_decide as Hempty; simpl.
  - apply length_zero_iff_nil in Hempty. split_and!; done.
  - assert (deck st ≠ []) as Hne by (by intros ?%length_zero_iff_nil).
    split_and!; [split; [done | by intros ?] | done |].
    intros _. split; [done|].
    rewrite length_app, length_take, Hlen. lia.
Qed.

Lemma draw_spec_witness :
  (1 ≤ 3)%Z ∧
  draw 3 initial =
    (mkStore (drop 3 makeDeck) (take 3 makeDeck),
     mkResponse 200
       (BDrawn [mkCard "A-Clubs" "A" "Clubs"; mkCard "2-Clubs" "2" "Clubs";
                mkCard "3-Clubs" "3" "Clubs"] 49)).
Proof.
  assert (1 ≤ 3)%Z as H3 by lia.
  split; [exact H3|].
  destruct (draw_spec 3 initial H3) as (_ & _ & Hdraw).
  destruct Hdraw as [Heq _]; [discriminate|].
  exact Heq.
Defined.

(** C6.  [shuffle] keeps the multiset of the cards of the deck: for every
    store and every sequence of random draws the Fisher-Yates loop
    consumes, the deck afterwards is a permutation of the deck before,
    with the same cards and the same count, and the discard pile is
    untouched. *)
Theorem shuffle_preserves_cards (random : nat → Rand) (st : Store) :
  (shuffle random st).1.(deck) ≡ₚ st.(deck) ∧
  length (shuffle random st).1.(deck) = length st.(deck) ∧
  (shuffle random st).1.(discardPile) = st.(discardPile).
Proof.
  simpl. split_and!; [|by rewrite shuffleArray_Permutation|done].
  apply shuffleArray_Permutation.
Qed.

(** C4.  [addCard rank suit id] fails with status 400 when rank or suit is
    missing.  Otherwise, the id being the one given or, by default,
    "<rank>-<suit>", it fails with status 409 exactly when that id is
    already in the deck or in the discard pile, and otherwise appends the
    new card to the end of the deck and answers it, every other card of
    both sequences staying as it was. *)
Theorem addCard_spec (rank suit id : option string) (st : Store) :
  (missing rank ∨ missing suit →
     addCard rank suit id st =
       (st, mkResponse 400 (BError "rank and suit are required"))) ∧
  (∀ r s : string,
     rank = Some r → r ≠ "" → suit = Some s → s ≠ "" →
     let cardId := field_after id (r +:+ "-" +:+ s) in
     let newCard := mkCard cardId r s in
     ((addCard rank suit id st).2.(code) = 409 ↔ cardId ∈ ids st) ∧
     (cardId ∈ ids st →
        addCard rank suit id st =
          (st, mkResponse 409 (BError "A card with that id already exists"))) ∧
     (cardId ∉ ids st →
        addCard rank suit id st =
          (mkStore (st.(deck) ++ [newCard]) st.(discardPile),
           mkResponse 201 (BCard newCard)))).
Proof.
  split.
  - rewrite !missing_truthy. unfold addCard.
    intros [-> | ->]; [done|]. by destruct (truthy rank).
  - intros r s -> Hr -> Hs cardId newCard.
    unfold addCard.
    assert (truthy (Some r) = Some r) as -> by by apply truthy_Some.
    assert (truthy (Some s) = Some s) as -> by by apply truthy_Some.
    rewrite <- field_after_truthy. fold cardId.
    destruct (_ || _) eqn:Htest.
    + apply id_taken in Htest. destruct st; simpl in *.
      split_and!; [done | done | by intros ?].
    + apply id_free in Htest. destruct st; simpl in *.
      split_and!; [split; [done | by intros ?] | by intros ? | done].
Qed.

Lemma addCard_spec_witness :
  Some "Joker" = Some "Joker" ∧ "Joker" ≠ "" ∧
  Some "Black" = Some "Black" ∧ "Black" ≠ "" ∧
  addCard (Some "Joker") (Some "Black") (Some "joker-black") initial =
    (mkStore (makeDeck ++ [mkCard "joker-black" "Joker" "Black"]) [],
     mkResponse 201 (BCard (mkCard "joker-black" "Joker" "Black"))).
Proof.
  assert ("Joker" ≠ "") as Hr by discriminate.
  assert ("Black" ≠ "") as Hs by discriminate.
  split_and!; [reflexivity | exact Hr | reflexivity | exact Hs |].
  destruct (addCard_spec (Some "Joker") (Some "Black") (Some "joker-black")
              initial) as [_ Hadd].
  destruct (Hadd "Joker" "Black" eq_refl Hr eq_refl Hs) as (_ & _ & Hnew).
  apply Hnew. apply (bool_decide_unpack _). vm_compute. exact I.
Defined.

(** C5.  [updateCard x] fails with status 404 exactly when no card of the
    deck has the id [x]; a card of the discard pile cannot be updated.
    When the card is found, the rank and the suit are overwritten only if
    provided and the card stays at its position, the rest of both
    sequences being as before.  When [newId] is provided, the request
    fails with status 409 if [newId] is an id of the deck or of the
    discard pile, and otherwise the card is renamed in place and
    answered. *)
Theorem updateCard_spec (x : string) (rank suit newId : option string)
    (st : Store) :
  ((updateCard x rank suit newId st).2.(code) = 404 ↔ x ∉ id <$> st.(deck)) ∧
  (x ∉ id <$> st.(deck) →
     updateCard x rank suit newId st =
       (st, mkResponse 404 (BError "Card not in deck"))) ∧
  (x ∈ id <$> st.(deck) → ∃ idx card, first_with_id st.(deck) x idx card) ∧
  (∀ (idx : nat) (card : Card),
     first_with_id st.(deck) x idx card →
     let written :=
       mkCard card.(id) (field_after rank card.(CardStore.rank))
         (field_after suit card.(CardStore.suit)) in
     (∃ card',
        (updateCard x rank suit newId st).1 =
          mkStore (<[idx := card']> st.(deck)) st.(discardPile) ∧
        card'.(CardStore.rank) = written.(CardStore.rank) ∧
        card'.(CardStore.suit) = written.(CardStore.suit)) ∧
     (missing newId →
        updateCard x rank suit newId st =
          (mkStore (<[idx := written]> st.(deck)) st.(discardPile),
           mkResponse 200 (BCard written))) ∧
     (∀ n : string,
        newId = Some n → n ≠ "" →
        (n ∈ ids st →
           (updateCard x rank suit newId st).2 =
             mkResponse 409 (BError "newId already exists")) ∧
        (n ∉ ids st →
           let renamed :=
             mkCard n written.(CardStore.rank) written.(CardStore.suit) in
           updateCard x rank suit newId st =
             (mkStore (<[idx := renamed]> st.(deck)) st.(discardPile),
              mkResponse 200 (BCard renamed))))).
Proof.
  assert (x ∉ id <$> deck st →
          updateCard x rank suit newId st =
            (st, mkResponse 404 (BError "Card not in deck"))) as H404.
  { intros Hx%findCardIndexById_None. unfold updateCard. by rewrite Hx. }
  split_and!; [| exact H404 | apply first_with_id_exists |].
  - split; [|by intros ->%H404].
    intros Hcode Hin.
    destruct (first_with_id_exists _ _ Hin) as (idx & card & Hfirst).
    rewrite (updateCard_found _ _ _ _ _ _ _ Hfirst) in Hcode.
    destruct (truthy newId); [case_bool_decide|]; discriminate.
  - intros idx card Hfirst written.
    pose proof (updateCard_found x rank suit newId st idx card Hfirst) as Hupd.
    cbv zeta in Hupd. fold written in Hupd. rewrite Hupd. split_and!.
    + destruct (truthy newId) as [n|]; [case_bool_decide|]; by eexists.
    + intros ->%missing_truthy. done.
    + intros n -> Hn.
      assert (truthy (Some n) = Some n) as -> by by apply truthy_Some.
      split; intros Hin.
      * by rewrite bool_decide_eq_true_2.
      * by rewrite bool_decide_eq_false_2.
Qed.

Lemma updateCard_spec_witness :
  first_with_id initial.(deck) "2-Clubs" 1 (mkCard "2-Clubs" "2" "Clubs") ∧
  Some "Deuce" = Some "Deuce" ∧ "Deuce" ≠ "" ∧
  updateCard "2-Clubs" (Some "Two") None (Some "Deuce") initial =
    (mkStore (<[1 := mkCard "Deuce" "Two" "Clubs"]> makeDeck) [],
     mkResponse 200 (BCard (mkCard "Deuce" "Two" "Clubs"))).
Proof.
  assert (first_with_id initial.(deck) "2-Clubs" 1
            (mkCard "2-Clubs" "2" "Clubs")) as Hfirst.
  { apply first_with_id_find. split; reflexivity. }
  assert ("Deuce" ≠ "") as Hn by discriminate.
  split_and!; [exact Hfirst | reflexivity | exact Hn |].
  destruct (updateCard_spec "2-Clubs" (Some "Two") None (Some "Deuce") initial)
    as (_ & _ & _ & Hfound).
  destruct (Hfound 1 _ Hfirst) as (_ & _ & Hnew).
  destruct (Hnew "Deuce" eq_refl Hn) as [_ Hrename].
  apply Hrename. apply (bool_decide_unpack _). vm_compute. exact I.
Defined.

(** C10.  An [updateCard] request whose [newId] is already an id of the
    deck or of the discard pile fails with status 409, yet the rank and
    the suit it provides have been written into the stored card before the
    id is checked: the store after the failure holds them, so that it
    differs from the store before as soon as one of them differs from what
    the card held.  A failed update is not atomic. *)
Theorem updateCard_conflict_not_atomic (x : string) (rank suit : option string)
    (n : string) (st : Store) (idx : nat) (card : Card) :
  first_with_id st.(deck) x idx card →
  n ≠ "" → n ∈ ids st →
  let written :=
    mkCard card.(id) (field_after rank card.(CardStore.rank))
      (field_after suit card.(CardStore.suit)) in
  updateCard x rank suit (Some n) st =
    (mkStore (<[idx := written]> st.(deck)) st.(discardPile),
     mkResponse 409 (BError "newId already exists")) ∧
  (∀ r, rank = Some r → r ≠ "" → written.(CardStore.rank) = r) ∧
  (∀ s, suit = Some s → s ≠ "" → written.(CardStore.suit) = s) ∧
  (written ≠ card → (updateCard x rank suit (Some n) st).1 ≠ st).
Proof.
  intros Hfirst Hn Hin written.
  assert (updateCard x rank suit (Some n) st =
    (mkStore (<[idx := written]> st.(deck)) st.(discardPile),
     mkResponse 409 (BError "newId already exists"))) as Hupd.
  { rewrite (updateCard_found _ _ _ _ _ _ _ Hfirst).
    assert (truthy (Some n) = Some n) as -> by by apply truthy_Some.
    by rewrite bool_decide_eq_true_2. }
  split_and!; [exact Hupd | | |].
  - intros r -> Hr. simpl. by rewrite decide_False.
  - intros s -> Hs. simpl. by rewrite decide_False.
  - intros Hdiff. rewrite Hupd. simpl. intros Hst.
    destruct Hfirst as (Hidx & _). apply Hdiff.
    assert (<[idx := written]> (deck st) !! idx = Some card) as Hlook.
    { rewrite <- Hst in Hidx. exact Hidx. }
    rewrite list_lookup_insert_eq in Hlook by (by eapply lookup_lt_Some).
    by simplify_eq.
Qed.

Lemma updateCard_conflict_not_atomic_witness :
  first_with_id initial.(deck) "A-Clubs" 0 (mkCard "A-Clubs" "A" "Clubs") ∧
  "2-Clubs" ≠ "" ∧ "2-Clubs" ∈ ids initial ∧
  updateCard "A-Clubs" (Some "Ace") None (Some "2-Clubs") initial =
    (mkStore (mkCard "A-Clubs" "Ace" "Clubs" :: drop 1 makeDeck) [],
     mkResponse 409 (BError "newId already exists")) ∧
  (updateCard "A-Clubs" (Some "Ace") None (Some "2-Clubs") initial).1 ≠ initial.
Proof.
  assert (first_with_id initial.(deck) "A-Clubs" 0
            (mkCard "A-Clubs" "A" "Clubs")) as Hfirst.
  { apply first_with_id_find. split; reflexivity. }
  assert ("2-Clubs" ≠ "") as Hn by discriminate.
  assert ("2-Clubs" ∈ ids initial) as Hin.
  { apply (bool_decide_unpack _). vm_compute. exact I. }
  split_and!; [exact Hfirst | exact Hn | exact Hin | |].
  - apply (updateCard_conflict_not_atomic "A-Clubs" (Some "Ace") None
             "2-Clubs" initial 0 _ Hfirst Hn Hin).
  - apply (updateCard_conflict_not_atomic "A-Clubs" (Some "Ace") None
             "2-Clubs" initial 0 _ Hfirst Hn Hin).
    discriminate.
Defined.

End CardStoreSpec.

(** ** The library CLI: properties *)

Module BookStoreSpec.
Import BookStore.

Section Properties.

Context {nonint : Type}.
Variable Number : string → number nonint.
Variable ToString : number nonint → string.
Variable trim : string → string.
Variable split : string → list string.
Variable toLowerCase : string → string.

Implicit Types w : World nonint.
Implicit Types b : Book nonint.

Lemma truthy_string s :
  truthy (Some s) = if decide (s = "") then None else Some s.
Proof. simpl. by case_bool_decide; case_decide. Qed.

(** *** [cmdAdd] *)

Lemma cmdAdd_aborts w answer rest :
  stdin w = answer :: rest → trim answer = "" →
  cmdAdd Number trim w =
    (Some tt,
     mkWorld (books w) (nextId w) rest
       (console w ++ [Ask "Title: "; Log "Title is required. Aborting add."])
       (closed w)).
Proof.
  intros Hin Ht. unfold cmdAdd, bind, question, write, push. rewrite Hin.
  simpl. rewrite Ht. simpl. by rewrite <- app_assoc.
Qed.

Lemma cmdAdd_adds w t a y s rest :
  stdin w = t :: a :: y :: s :: rest → trim t ≠ "" →
  let book := book_of_answers trim (year_as_stored Number) (nextId w) t a y s in
  cmdAdd Number trim w =
    (Some tt,
     mkWorld (books w ++ [book]) (nextId w + 1) rest
       (console w ++
          [Ask "Title: "; Ask "Author: "; Ask "Year (optional): ";
           Ask "ISBN (optional): "; LogBook "Added:" book])
       (closed w)).
Proof.
  intros Hin Ht book. subst book.
  unfold cmdAdd, bind, question, write, get_books, set_books,
    post_increment_nextId, push, book_of_answers, year_as_stored.
  rewrite Hin. cbn [stdin books nextId console closed].
  rewrite (truthy_string (trim t)), decide_False by done.
  cbn [stdin books nextId console closed].
  rewrite !truthy_string.
  destruct (decide (trim a = "")), (decide (trim y = "")),
    (decide (trim s = "")); cbn;
    try destruct (number_truthy _); cbn;
    by rewrite <- !app_assoc.
Qed.

(** What [cmdAdd] leaves when the input ends before the fourth answer:
    the store as it was. *)
Lemma cmdAdd_store w :
  (cmdAdd Number trim w).2.(books) = books w ∧
  (cmdAdd Number trim w).2.(nextId) = nextId w
  ∨ ∃ t a y s rest, stdin w = t :: a :: y :: s :: rest ∧ trim t ≠ "".
Proof.
  destruct (stdin w) as [|t rest] eqn:Hin.
  { left. unfold cmdAdd, bind, question. by rewrite Hin. }
  destruct (decide (trim t = "")) as [Ht|Ht].
  { left. by rewrite (cmdAdd_aborts _ _ _ Hin Ht). }
  destruct rest as [|a [|y [|s rest]]]; [left; revert Hin Ht..|right; eauto 10].
  all: intros Hin Ht;
    unfold cmdAdd, bind, question, write, push; rewrite Hin;
    cbn [stdin books nextId console closed];
    rewrite (truthy_string (trim t)), decide_False by done;
    done.
Qed.

(** *** The counter stays ahead of the store *)

Lemma elem_of_book_ids w i : i ∈ ids w ↔ ∃ b, b ∈ books w ∧ id b = i.
Proof. unfold ids. rewrite list_elem_of_fmap. naive_solver. Qed.

Lemma extends_refl w : extends w w.
Proof. split; [lia | by left]. Qed.

Lemma extends_trans w1 w2 w3 : extends w1 w2 → extends w2 w3 → extends w1 w3.
Proof.
  intros [Hn12 Hi12] [Hn23 Hi23]. split; [lia|].
  intros i [Hi | Hi]%Hi23; [by apply Hi12 | right; lia].
Qed.

(** A step that leaves the ids of the store among the old ones, and the
    counter where it was, is harmless. *)
Lemma shrink_safe w w' :
  (∀ b', b' ∈ books w' → ∃ b, b ∈ books w ∧ id b = id b') →
  nextId w' = nextId w →
  below_counter w → below_counter w' ∧ extends w w'.
Proof.
  intros Hsub Hn Hw. split.
  - intros b' (b & Hb & <-)%Hsub. rewrite Hn. by apply Hw.
  - split; [lia|]. intros i (b' & Hb' & <-)%elem_of_book_ids. left.
    apply elem_of_book_ids. destruct (Hsub _ Hb') as (b & Hb & Hid). eauto.
Qed.

Lemma same_store_safe w w' :
  books w' = books w → nextId w' = nextId w →
  below_counter w → below_counter w' ∧ extends w w'.
Proof. intros Hb Hn. apply shrink_safe; [|done]. rewrite Hb. eauto. Qed.

(** Appending a book that takes the counter as its id, and moving the
    counter up by one. *)
Lemma append_safe w w' b :
  books w' = books w ++ [b] → id b = nextId w → nextId w' = (nextId w + 1)%Z →
  below_counter w → below_counter w' ∧ extends w w'.
Proof.
  intros Hb Hid Hn Hw. split.
  - intros b'. rewrite Hb, Hn, elem_of_app, list_elem_of_singleton.
    intros [Hb' | ->]; [apply Hw in Hb'|]; lia.
  - split; [lia|]. intros i (b' & Hb' & <-)%elem_of_book_ids. revert Hb'.
    rewrite Hb, elem_of_app, list_elem_of_singleton.
    intros [Hb' | ->]; [left; apply elem_of_book_ids; eauto | right; lia].
Qed.

(** Overwriting a book by one with the same id. *)
Lemma overwrite_safe w w' idx b0 b :
  books w !! idx = Some b0 → id b = id b0 →
  books w' = <[idx := b]> (books w) → nextId w' = nextId w →
  below_counter w → below_counter w' ∧ extends w w'.
Proof.
  intros Hidx Hid Hb Hn. apply shrink_safe; [|done].
  intros b'. rewrite Hb. intros (j & Hj)%list_elem_of_lookup.
  apply list_lookup_insert_Some in Hj as [(-> & <- & _) | (_ & Hj)].
  - exists b0. split; [|done]. by eapply list_elem_of_lookup_2.
  - exists b'. split; [|done]. by eapply list_elem_of_lookup_2.
Qed.

Lemma safe_ret {A} (a : A) : safe (ret (nonint:=nonint) a).
Proof. intros w Hw. by apply same_store_safe. Qed.

Lemma safe_bind {A B} (m : IO A) (k : A → IO (nonint:=nonint) B) :
  safe m → (∀ a, safe (k a)) → safe (bind m k).
Proof.
  intros Hm Hk w Hw. unfold bind.
  destruct (Hm w Hw) as [Hw1 He1].
  destruct (m w) as [[a|] w1]; simpl in *; [|done].
  destruct (Hk a w1 Hw1) as [Hw2 He2].
  split; [done|]. by eapply extends_trans.
Qed.

Lemma safe_write o : safe (write (nonint:=nonint) o).
Proof. intros w Hw. by apply same_store_safe. Qed.

Lemma safe_question prompt : safe (question (nonint:=nonint) prompt).
Proof.
  intros w Hw. unfold question.
  destruct (stdin w); by apply same_store_safe.
Qed.

Lemma safe_get_books : safe (get_books (nonint:=nonint)).
Proof. intros w Hw. by apply same_store_safe. Qed.

Lemma safe_rl_close : safe (rl_close (nonint:=nonint)).
Proof. intros w Hw. by apply same_store_safe. Qed.

Lemma safe_listBooks arr : safe (listBooks (nonint:=nonint) arr).
Proof. unfold listBooks. case_decide; apply safe_write. Qed.

Lemma safe_cmdAdd : safe (cmdAdd Number trim).
Proof.
  intros w Hw. destruct (cmdAdd_store w) as [[Hb Hn] | Hfull].
  - by apply same_store_safe.
  - destruct Hfull as (t & a & y & s & rest & Hin & Ht).
    rewrite (cmdAdd_adds _ _ _ _ _ _ Hin Ht). cbn [snd].
    by eapply append_safe.
Qed.

Lemma safe_cmdFind arg : safe (cmdFind ToString toLowerCase arg).
Proof.
  unfold cmdFind. destruct (truthy _); [|apply safe_write].
  apply safe_bind; [apply safe_get_books|]. intros bs.
  cbv zeta. case_decide; [apply safe_write | apply safe_listBooks].
Qed.

(** An index answered by [findIndex] is inside the array. *)
Lemma findIndex_lt {A} (p : A → bool) (arr : list A) idx :
  findIndex p arr = Some idx → idx < length arr.
Proof.
  revert idx. induction arr as [|x arr IH]; intros idx; simpl; [done|].
  destruct (p x); [intros [= <-]; lia|].
  destruct (findIndex p arr) as [i|]; simpl; [|done].
  intros [= <-]. specialize (IH i eq_refl). lia.
Qed.

Lemma bind_get_books {B} (k : list (Book nonint) → IO B) w :
  bind get_books k w = k (books w) w.
Proof. done. Qed.

Lemma safe_cmdUpdate arg : safe (cmdUpdate Number ToString trim arg).
Proof.
  intros w Hw. unfold cmdUpdate. cbv zeta.
  destruct (negb _); [by apply same_store_safe|].
  rewrite bind_get_books.
  destruct (findIndex _ _) as [idx|]; [|by apply same_store_safe].
  destruct (books w !! idx) as [book|] eqn:Hidx; [|by apply same_store_safe].
  unfold bind, question, write, get_books, set_books, push.
  cbn [stdin books nextId console closed].
  destruct (stdin w) as [|t [|a [|y [|s rest]]]];
    cbn [stdin books nextId console closed fst snd hangup];
    try (by apply same_store_safe).
  eapply overwrite_safe; [exact Hidx | | reflexivity | reflexivity | done].
  by repeat (destruct (truthy (Some _))).
Qed.

Lemma safe_cmdRemove arg : safe (cmdRemove Number arg).
Proof.
  intros w Hw. unfold cmdRemove. cbv zeta.
  destruct (negb _); [by apply same_store_safe|].
  rewrite bind_get_books.
  destruct (findIndex _ _) as [idx|]; [|by apply same_store_safe].
  destruct (books w !! idx) as [removed|] eqn:Hidx;
    [|by apply same_store_safe].
  apply shrink_safe; [|done|done].
  intros b' Hb'. exists b'. split; [|done].
  eapply list_elem_of_delete_inv. exact Hb'.
Qed.

Lemma safe_cmdClear : safe (cmdClear (nonint:=nonint) trim toLowerCase).
Proof.
  intros w Hw. unfold cmdClear, bind, question, write, set_books.
  destruct (stdin w) as [|answer rest];
    cbn [stdin books nextId console closed fst snd hangup];
    [by apply same_store_safe|].
  case_decide; cbn [books nextId snd]; [|by apply same_store_safe].
  apply shrink_safe; [|done|done]. by intros b' ?%elem_of_nil.
Qed.

Lemma safe_then_prompt (m : IO (nonint:=nonint) unit) :
  safe m → safe (bind m (λ _, write LinePrompt)).
Proof. intros Hm. apply safe_bind; [done|]. intros _. apply safe_write. Qed.

Lemma safe_handleLine line : safe (handleLine Number ToString trim split
    toLowerCase line).
Proof.
  unfold handleLine. cbv zeta. repeat case_decide.
  - apply safe_write.
  - apply safe_then_prompt, safe_write.
  - apply safe_then_prompt, safe_bind;
      [apply safe_get_books | apply safe_listBooks].
  - apply safe_then_prompt, safe_cmdAdd.
  - apply safe_then_prompt, safe_cmdFind.
  - apply safe_then_prompt, safe_cmdUpdate.
  - apply safe_then_prompt, safe_cmdRemove.
  - apply safe_then_prompt, safe_cmdClear.
  - apply safe_rl_close.
  - apply safe_then_prompt, safe_write.
Qed.

Lemma on_event_safe w :
  below_counter w →
  below_counter (on_event Number ToString trim split toLowerCase w) ∧
  extends w (on_event Number ToString trim split toLowerCase w).
Proof.
  intros Hw. unfold on_event.
  destruct (closed w) eqn:Hclosed;
    [split; [done | apply extends_refl]|].
  destruct (stdin w) as [|line rest]; [by apply same_store_safe|].
  set (w0 := mkWorld _ _ _ _ _).
  assert (below_counter w0 ∧ extends w w0) as [Hw0 He0]
    by by apply same_store_safe.
  destruct (safe_handleLine line w0 Hw0) as [Hw1 He1].
  split; [exact Hw1 | exact (extends_trans _ _ _ He0 He1)].
Qed.

Lemma session_safe n w :
  below_counter w →
  below_counter (session Number ToString trim split toLowerCase n w) ∧
  extends w (session Number ToString trim split toLowerCase n w).
Proof.
  revert w. induction n as [|n IH]; intros w Hw; simpl.
  - split; [done | apply extends_refl].
  - destruct (on_event_safe w Hw) as [Hw1 He1].
    destruct (IH _ Hw1) as [Hw2 He2].
    split; [exact Hw2 | exact (extends_trans _ _ _ He1 He2)].
Qed.

Lemma session_add n m w :
  session Number ToString trim split toLowerCase (n + m) w =
  session Number ToString trim split toLowerCase m (session Number ToString
      trim split toLowerCase n w).
Proof. revert w. induction n as [|n IH]; intros w; simpl; [done|]. apply IH.
    Qed.

(** [Math.max] of a non-empty list is at least each of its members. *)
Lemma foldl_max_ge (a : Z) (l : list Z) :
  (a ≤ foldl Z.max a l)%Z ∧ ∀ x, x ∈ l → (x ≤ foldl Z.max a l)%Z.
Proof.
  revert a. induction l as [|y l IH]; intros a; simpl.
  - split; [lia | by intros x ?%elem_of_nil].
  - destruct (IH (Z.max a y)) as [Ha Hl]. split; [lia|].
    intros x [-> | Hx]%elem_of_cons; [lia | by apply Hl].
Qed.

(** A counter seeded from the books is ahead of all of them. *)
Lemma seeded_below_counter w :
  nextId w = seedNextId (books w) → below_counter w.
Proof.
  intros Hseed b Hb. rewrite Hseed. unfold seedNextId.
  assert (id b ∈ id <$> books w) as Hin by by apply list_elem_of_fmap_2.
  destruct (id <$> books w) as [|x xs]; [by apply elem_of_nil in Hin|].
  destruct (foldl_max_ge x xs) as [Hx Hxs].
  apply elem_of_cons in Hin as [-> | Hin]; [lia|].
  apply Hxs in Hin. lia.
Qed.

(** *** The [add] command and the id counter *)

(** C7.  When the title given to [add] is empty after trimming, the whole
    command stops with a message: the list of books is as before, no id
    is used up, the counter keeping its value, and the add that follows
    receives the id that was next before.  [trim] is the one of the
    language, whatever white space it strips. *)
Theorem cmdAdd_empty_title w (answer : string) (rest : list string) :
  stdin w = answer :: rest → trim answer = "" →
  let w' := (cmdAdd Number trim w).2 in
  (cmdAdd Number trim w).1 = Some tt ∧
  books w' = books w ∧
  nextId w' = nextId w ∧
  console w' =
    console w ++ [Ask "Title: "; Log "Title is required. Aborting add."] ∧
  stdin w' = rest ∧
  ∀ t a y s rest',
    rest = t :: a :: y :: s :: rest' → trim t ≠ "" →
    ∃ b, books (cmdAdd Number trim w').2 = books w ++ [b] ∧ id b = nextId w.
Proof.
  intros Hin Ht w'. subst w'. rewrite (cmdAdd_aborts _ _ _ Hin Ht).
  cbn [fst snd books nextId stdin console].
  split_and!; try done.
  intros t a y s rest' -> Ht'.
  rewrite (cmdAdd_adds _ t a y s rest'); [|done|done].
  cbn [fst snd books nextId stdin console]. eauto.
Qed.

(** C8, as the code has it.  When the title given to [add] is not empty,
    exactly one book is appended: its id is the next id, and the counter
    moves up by one; its title is the title given; its author is the
    author given, or "Unknown" when that answer is empty; its isbn is
    there exactly when the isbn answer is not empty.  Its year is left out
    when the year answer is empty or does not convert to a number, and is
    there, equal to the converted answer, when the answer converts to a
    number other than zero. *)
Theorem cmdAdd_appends w (t a y s : string) (rest : list string) :
  stdin w = t :: a :: y :: s :: rest → trim t ≠ "" →
  let w' := (cmdAdd Number trim w).2 in
  ∃ book,
    (cmdAdd Number trim w).1 = Some tt ∧
    books w' = books w ++ [book] ∧
    nextId w' = (nextId w + 1)%Z ∧
    stdin w' = rest ∧
    console w' =
      console w ++
        [Ask "Title: "; Ask "Author: "; Ask "Year (optional): ";
         Ask "ISBN (optional): "; LogBook "Added:" book] ∧
    id book = nextId w ∧
    title book = trim t ∧
    (author book = if decide (trim a = "") then "Unknown" else trim a) ∧
    (isbn book = if decide (trim s = "") then None else Some (trim s)) ∧
    (trim y = "" ∨ Number (trim y) = NaN → year book = None) ∧
    (trim y ≠ "" → Number (trim y) ≠ NaN → Number (trim y) ≠ Int 0 →
       year book = Some (Number (trim y))).
Proof using Type.
  clear ToString. intros Hin Ht w'. subst w'.
  rewrite (cmdAdd_adds _ _ _ _ _ _ Hin Ht).
  eexists. cbn [fst snd books nextId stdin console].
  split_and!; try done; unfold book_of_answers, year_as_stored; cbn [year].
  - intros [-> | ->]; [done|]. by case_decide.
  - intros Hy Hnan Hzero. rewrite decide_False by done.
    destruct (Number (trim y)) as [|z|x]; cbn; try done.
    destruct (Z.eqb_spec z 0) as [->|]; done.
Qed.

(** C9.  Ids are never used twice.  The counter, seeded with the greatest
    id of the store plus one, never goes down; every book of the store is
    below it; and so a book that enters the store, whether by the next
    command of a session or by an [add] run on the store as it stands,
    has an id strictly above the id of every book that was in the store
    at any earlier moment, the books since removed or cleared
    included. *)
Theorem ids_never_reused w0 (n m : nat) :
  nextId w0 = seedNextId (books w0) →
  let w1 := session Number ToString trim split toLowerCase n w0 in
  let w2 := session Number ToString trim split toLowerCase m w1 in
  let w3 := session Number ToString trim split toLowerCase 1 w2 in
  (nextId w0 ≤ nextId w1 ≤ nextId w2)%Z ∧
  (∀ b1, b1 ∈ books w1 → (id b1 < nextId w2)%Z) ∧
  (∀ b3, b3 ∈ books w3 → id b3 ∉ ids w2 →
     ∀ b1, b1 ∈ books w1 → (id b1 < id b3)%Z) ∧
  (∀ w b, books w = books w2 → nextId w = nextId w2 →
     b ∈ books (cmdAdd Number trim w).2 → id b ∉ ids w2 →
     id b = nextId w2 ∧ ∀ b1, b1 ∈ books w1 → (id b1 < id b)%Z).
Proof.
  intros Hseed w1 w2 w3.
  pose proof (seeded_below_counter _ Hseed) as H0.
  destruct (session_safe n w0 H0) as [H1 [Hn01 _]]. fold w1 in H1, Hn01.
  destruct (session_safe m w1 H1) as [H2 [Hn12 _]]. fold w2 in H2, Hn12.
  destruct (session_safe 1 w2 H2) as [H3 [_ Hnew]]. fold w3 in H3, Hnew.
  assert (∀ b1, b1 ∈ books w1 → (id b1 < nextId w2)%Z) as Hold.
  { intros b1 Hb1%H1. lia. }
  split_and!; [done | done | exact Hold | |].
  - intros b3 Hb3 Hfresh b1 Hb1%Hold.
    destruct (Hnew (id b3)) as [Hin | Hge]; [|done|lia].
    apply elem_of_book_ids. eauto.
  - intros w b Hb Hn Hadd Hfresh.
    assert (below_counter w) as Hw.
    { intros b'. rewrite Hb, Hn. apply H2. }
    assert (ids w = ids w2) as Hids by (unfold ids; by rewrite Hb).
    assert (id b = nextId w2) as Hid.
    { destruct (cmdAdd_store w) as [[Hsame _] | Hfull].
      - exfalso. apply Hfresh. rewrite <- Hids. apply elem_of_book_ids.
        rewrite Hsame in Hadd. eauto.
      - destruct Hfull as (t & a & y & s & rest & Hin & Ht).
        rewrite (cmdAdd_adds _ _ _ _ _ _ Hin Ht) in Hadd.
        cbn [snd books] in Hadd.
        apply elem_of_app in Hadd as [Hadd | ->%list_elem_of_singleton].
        + exfalso. apply Hfresh. rewrite <- Hids. apply elem_of_book_ids. eauto.
        + by rewrite <- Hn. }
    split; [done|]. intros b1 Hb1%Hold. lia.
Qed.

End Properties.

(** *** Closed instances *)

Lemma cmdAdd_empty_title_witness :
  let w := start (nonint:=Empty_set) ["  "; "add"; "Dune"; ""; "1965"; ""] in
  stdin w = "  " :: ["add"; "Dune"; ""; "1965"; ""] ∧ trimAscii "  " = "" ∧
  books (cmdAdd NumberDec trimAscii w).2 = sample_books ∧
  nextId (cmdAdd NumberDec trimAscii w).2 = 3%Z.
Proof.
  intros w.
  assert (stdin w = "  " :: ["add"; "Dune"; ""; "1965"; ""]) as Hin
    by reflexivity.
  assert (trimAscii "  " = "") as Ht by reflexivity.
  destruct (cmdAdd_empty_title NumberDec trimAscii w _ _ Hin Ht) as (_ & Hb &
      Hn & _).
  split_and!; [exact Hin | exact Ht | exact Hb | exact Hn].
Defined.

Lemma cmdAdd_appends_witness :
  let w := start (nonint:=Empty_set) [" Dune "; "Frank Herbert"; "1965"; ""] in
  stdin w = [" Dune "; "Frank Herbert"; "1965"; ""] ∧ trimAscii " Dune " ≠ "" ∧
  ∃ book,
    books (cmdAdd NumberDec trimAscii w).2 = sample_books ++ [book] ∧
    nextId (cmdAdd NumberDec trimAscii w).2 = 4%Z ∧
    id book = 3%Z ∧ title book = "Dune" ∧ author book = "Frank Herbert" ∧
    isbn book = None ∧ year book = Some (Int 1965).
Proof.
  intros w.
  assert (stdin w = [" Dune "; "Frank Herbert"; "1965"; ""]) as Hin
    by reflexivity.
  assert (trimAscii " Dune " ≠ "") as Ht by discriminate.
  destruct (cmdAdd_appends NumberDec trimAscii w _ _ _ _ _ Hin Ht)
    as (book & _ & Hb & Hn & _ & _ & Hid & Htitle & Hauthor & Hisbn & _ & Hy).
  split_and!; [exact Hin | exact Ht |].
  exists book.
  split_and!; [exact Hb | exact Hn | exact Hid | exact Htitle | exact Hauthor
               | exact Hisbn |].
  apply Hy; discriminate.
Defined.

(** C8, as the specification words it, fails on a year answer such as
    "unknown": the answer is not empty, yet it converts to [NaN] and the
    book is stored without a year. *)
Lemma cmdAdd_year_unreadable_omitted :
  let w := start (nonint:=Empty_set) ["Dune"; ""; "unknown"; ""] in
  stdin w = ["Dune"; ""; "unknown"; ""] ∧ trimAscii "Dune" ≠ "" ∧
  trimAscii "unknown" ≠ "" ∧
  books (cmdAdd NumberDec trimAscii w).2 =
    sample_books ++ [mkBook 3%Z "Dune" "Unknown" None None] ∧
  ¬ cmdAdd_as_specified NumberDec trimAscii w "Dune" "" "unknown" "".
Proof.
  intros w. split_and!; [reflexivity | discriminate | discriminate
                         | reflexivity |].
  intros [Hbooks _]. vm_compute in Hbooks. discriminate.
Qed.

Lemma ids_never_reused_witness :
  let w0 := start (nonint:=Empty_set)
              ["remove 2"; "add"; "Dune"; ""; ""; ""] in
  let w1 := session NumberDec ToStringDec trimAscii splitAscii toLowerCaseAscii
      0 w0 in
  let w2 := session NumberDec ToStringDec trimAscii splitAscii toLowerCaseAscii
      1 w1 in
  let w3 := session NumberDec ToStringDec trimAscii splitAscii toLowerCaseAscii
      1 w2 in
  nextId w0 = seedNextId (books w0) ∧
  ids w1 = [1; 2]%Z ∧ ids w2 = [1]%Z ∧ ids w3 = [1; 3]%Z ∧
  ∀ b3, b3 ∈ books w3 → id b3 ∉ ids w2 →
    ∀ b1, b1 ∈ books w1 → (id b1 < id b3)%Z.
Proof.
  intros w0 w1 w2 w3.
  assert (nextId w0 = seedNextId (books w0)) as Hseed by reflexivity.
  split_and!; [exact Hseed | reflexivity | reflexivity | reflexivity |].
  apply (ids_never_reused NumberDec ToStringDec trimAscii splitAscii
      toLowerCaseAscii w0 0 1 Hseed).
Defined.

End BookStoreSpec.

(** ** The card store: further properties *)

Module CardStoreExtra.
Import CardStore CardQueries CardStoreSpec.

(** *** Looking a card up *)

Lemma find_id_is_first (d : list Card) x idx card :
  first_with_id d x idx card → find (id_is x) d = Some card.
Proof.
  revert idx. induction d as [|c d IH]; intros idx (Hidx & Hid & Hfirst).
  - done.
  - unfold find, id_is in *. simpl. destruct idx as [|idx]; simpl in *.
    + simplify_eq. by rewrite bool_decide_eq_true_2.
    + rewrite bool_decide_eq_false_2 by (apply (Hfirst 0); [done | lia]).
      apply (IH idx). split_and!; [done..|].
      intros j c' Hj Hlt. apply (Hfirst (S j)); [done | lia].
Qed.

Lemma find_id_is_None (d : list Card) x :
  x ∉ id <$> d → find (id_is x) d = None.
Proof.
  induction d as [|c d IH]; [done|]. unfold find, id_is in *. simpl.
  rewrite not_elem_of_cons. intros [Hne Hx].
  rewrite bool_decide_eq_false_2 by done. by apply IH.
Qed.

Lemma removeCard_found x st idx card :
  first_with_id st.(deck) x idx card →
  removeCard x st =
    (mkStore (delete idx st.(deck)) (st.(discardPile) ++ [card]),
     mkResponse 200 (BRemoved card)).
Proof.
  intros [Hfind Hidx]%first_with_id_find.
  unfold removeCard. by rewrite Hfind, Hidx.
Qed.

Lemma removeCard_missing x st :
  x ∉ id <$> st.(deck) →
  removeCard x st = (st, mkResponse 404 (BError "Card not found in deck")).
Proof.
  intros Hx%findCardIndexById_None. unfold removeCard. by rewrite Hx.
Qed.

Lemma updateCard_missing x r s n st :
  x ∉ id <$> st.(deck) →
  updateCard x r s n st = (st, mkResponse 404 (BError "Card not in deck")).
Proof.
  intros Hx%findCardIndexById_None. unfold updateCard. by rewrite Hx.
Qed.

Lemma getCard_in_deck x st idx card :
  first_with_id st.(deck) x idx card →
  getCard x st = (st, mkResponse 200 (BCard card)).
Proof.
  intros Hfirst. unfold getCard. by rewrite (find_id_is_first _ _ _ _ Hfirst).
Qed.

Lemma getCard_in_pile x st idx card :
  x ∉ id <$> st.(deck) → first_with_id st.(discardPile) x idx card →
  getCard x st = (st, mkResponse 200 (BCard card)).
Proof.
  intros Hx Hfirst. unfold getCard.
  by rewrite (find_id_is_None _ _ Hx), (find_id_is_first _ _ _ _ Hfirst).
Qed.

Lemma getCard_missing x st :
  x ∉ ids st → getCard x st = (st, mkResponse 404 (BError "Card not found")).
Proof.
  rewrite elem_of_card_ids. intros Hx. unfold getCard.
  rewrite !find_id_is_None; [done | |]; intros ?; apply Hx; auto.
Qed.

(** X1.  [removeCard x] answers 404 and leaves the store alone exactly
    when no card of the deck has the id [x].  Otherwise the first card of
    the deck with that id is taken out of the deck, the other cards
    keeping their order, and put at the end of the discard pile; the
    response carries it. *)
Theorem removeCard_spec (x : string) (st : Store) :
  ((removeCard x st).2.(code) = 404 ↔ x ∉ id <$> st.(deck)) ∧
  (x ∉ id <$> st.(deck) →
     removeCard x st =
       (st, mkResponse 404 (BError "Card not found in deck"))) ∧
  (x ∈ id <$> st.(deck) → ∃ idx card, first_with_id st.(deck) x idx card) ∧
  (∀ idx card,
     first_with_id st.(deck) x idx card →
     removeCard x st =
       (mkStore (take idx st.(deck) ++ drop (S idx) st.(deck))
          (st.(discardPile) ++ [card]),
        mkResponse 200 (BRemoved card))).
Proof.
  split_and!.
  - split; [|by intros ->%removeCard_missing].
    intros Hcode Hin.
    destruct (first_with_id_exists _ _ Hin) as (idx & card & Hfirst).
    by rewrite (removeCard_found _ _ _ _ Hfirst) in Hcode.
  - apply removeCard_missing.
  - apply first_with_id_exists.
  - intros idx card Hfirst.
    by rewrite (removeCard_found _ _ _ _ Hfirst), delete_take_drop.
Qed.

(** X2.  [getCard x] never changes the store.  It answers 404 exactly
    when neither the deck nor the discard pile has a card with the id; it
    answers the first card of the deck with that id when there is one,
    and otherwise the first such card of the discard pile. *)
Theorem getCard_spec (x : string) (st : Store) :
  (getCard x st).1 = st ∧
  ((getCard x st).2.(code) = 404 ↔ x ∉ ids st) ∧
  (x ∉ ids st →
     (getCard x st).2 = mkResponse 404 (BError "Card not found")) ∧
  (∀ idx card,
     first_with_id st.(deck) x idx card →
     (getCard x st).2 = mkResponse 200 (BCard card)) ∧
  (x ∉ id <$> st.(deck) →
   ∀ idx card,
     first_with_id st.(discardPile) x idx card →
     (getCard x st).2 = mkResponse 200 (BCard card)).
Proof.
  split_and!.
  - unfold getCard. by repeat case_match.
  - split; [|by intros ->%getCard_missing].
    intros Hcode [Hin | Hin]%elem_of_card_ids.
    + destruct (first_with_id_exists _ _ Hin) as (idx & card & Hfirst).
      by rewrite (getCard_in_deck _ _ _ _ Hfirst) in Hcode.
    + destruct (decide (x ∈ id <$> st.(deck))) as [Hd | Hd].
      * destruct (first_with_id_exists _ _ Hd) as (idx & card & Hfirst).
        by rewrite (getCard_in_deck _ _ _ _ Hfirst) in Hcode.
      * destruct (first_with_id_exists _ _ Hin) as (idx & card & Hfirst).
        by rewrite (getCard_in_pile _ _ _ _ Hd Hfirst) in Hcode.
  - by intros ->%getCard_missing.
  - by intros idx card ->%getCard_in_deck.
  - intros Hd idx card Hfirst. by rewrite (getCard_in_pile _ _ _ _ Hd Hfirst).
Qed.

(** *** Cards are moved, never lost *)

(** [draw] on a deck that is not empty, in closed form. *)
Lemma draw_nonempty n st :
  st.(deck) ≠ [] →
  let k := Z.to_nat (Z.max 1 n) in
  draw n st =
    (mkStore (drop k st.(deck)) (st.(discardPile) ++ take k st.(deck)),
     mkResponse 200 (BDrawn (take k st.(deck)) (length (drop k st.(deck))))).
Proof.
  intros Hne k. unfold draw.
  rewrite bool_decide_eq_false_2 by (by intros ?%length_zero_iff_nil).
  by rewrite draw_loop_take_drop.
Qed.

Lemma draw_empty n st :
  st.(deck) = [] → draw n st = (st, mkResponse 400 (BError "Deck is empty")).
Proof. intros Hd. unfold draw. by rewrite Hd. Qed.

Lemma cards_handle_moves req st :
  moves_only req = true → cards (handle req st).1 ≡ₚ cards st.
Proof.
  unfold cards. destruct req; try done; intros _; cbn [handle].
  - destruct (decide (x ∈ id <$> st.(deck))) as [Hin | Hout].
    + destruct (first_with_id_exists _ _ Hin) as (idx & card & Hfirst).
      rewrite (removeCard_found _ _ _ _ Hfirst). simpl.
      destruct Hfirst as (Hidx & _).
      rewrite (delete_Permutation _ _ _ Hidx) at 2. simpl.
      by rewrite app_assoc, <- Permutation_cons_append.
    + by rewrite removeCard_missing.
  - simpl. by rewrite shuffleArray_Permutation.
  - destruct (decide (st.(deck) = [])) as [Hd | Hd].
    + by rewrite draw_empty.
    + rewrite draw_nonempty by done. simpl.
      rewrite (Permutation_app_comm (discardPile st)), app_assoc.
      by rewrite (Permutation_app_comm (drop _ _)), take_drop.
Qed.

(** X3.  Removing, shuffling, drawing and peeking only move cards about:
    the cards of the deck and the discard pile together are, after the
    request, a rearrangement of what they were before; no card is lost,
    copied or altered. *)
Theorem moves_keep_cards (req : Request) (st : Store) :
  moves_only req = true →
  (handle req st).1.(deck) ++ (handle req st).1.(discardPile)
    ≡ₚ st.(deck) ++ st.(discardPile).
Proof. apply cards_handle_moves. Qed.

Lemma moves_keep_cards_witness :
  moves_only (RemoveCard "K-Hearts") = true ∧
  (handle (RemoveCard "K-Hearts") initial).1.(deck) ++
    (handle (RemoveCard "K-Hearts") initial).1.(discardPile)
    ≡ₚ initial.(deck) ++ initial.(discardPile).
Proof.
  split; [reflexivity|].
  exact (moves_keep_cards (RemoveCard "K-Hearts") initial eq_refl).
Defined.

Lemma addCard_cases r s i st :
  (fst (addCard r s i st) = st ∧ code (snd (addCard r s i st)) ≠ 201)
  ∨ (∃ c, (id c ∉ ids st) ∧
      addCard r s i st =
        (mkStore (st.(deck) ++ [c]) st.(discardPile),
         mkResponse 201 (BCard c))).
Proof.
  unfold addCard.
  destruct (truthy r) as [r'|]; [|by left].
  destruct (truthy s) as [s'|]; [|by left].
  destruct (_ || _) eqn:Hfree; [by left|]. right.
  apply id_free in Hfree. destruct st as [d p]; simpl in *.
  eexists (mkCard _ r' s'). split; [exact Hfree | done].
Qed.

Lemma updateCard_deck_length x r s n st :
  length (updateCard x r s n st).1.(deck) = length st.(deck) ∧
  (updateCard x r s n st).1.(discardPile) = st.(discardPile) ∧
  (updateCard x r s n st).2.(code) ≠ 201.
Proof.
  destruct (decide (x ∈ id <$> st.(deck))) as [Hin | Hout].
  - destruct (first_with_id_exists _ _ Hin) as (idx & card & Hfirst).
    rewrite (updateCard_found _ _ _ _ _ _ _ Hfirst).
    destruct (truthy n); [case_bool_decide|]; simpl;
      by rewrite length_insert.
  - by rewrite updateCard_missing.
Qed.

(** X4.  The store never loses a card except by [reset].  A request
    answered with status 201, which only [addCard] gives, leaves one card
    more in the store; every other request but [reset] leaves the number
    of cards of the deck and the discard pile together as it was. *)
Theorem total_of_cards (req : Request) (st : Store) :
  ((handle req st).2.(code) = 201 →
     (∃ r s i, req = AddCard r s i) ∧
     total (handle req st).1 = S (total st)) ∧
  (req ≠ Reset → (handle req st).2.(code) ≠ 201 →
     total (handle req st).1 = total st).
Proof.
  assert (∀ req', moves_only req' = true →
            total (handle req' st).1 = total st ∧
            (handle req' st).2.(code) ≠ 201) as Hmoves.
  { intros req' Hm. split.
    - unfold total. rewrite <- !length_app.
      apply Permutation_length. by apply cards_handle_moves.
    - destruct req'; try done; cbn [handle].
      + unfold removeCard. by repeat case_match.
      + unfold draw. by repeat case_match. }
  destruct req as [r s i|x r s n|x|random|n|n|];
    try (match goal with
         | |- context [handle ?r st] =>
             destruct (Hmoves r eq_refl) as [Ht Hc]
         end; split; [by intros ? | by intros _ _]);
    cbn [handle].
  - destruct (addCard_cases r s i st) as [[Hst Hc] | (c & _ & ->)].
    + split; [done|]. intros _ _. by rewrite Hst.
    + simpl. split; [|done]. intros _. split; [eauto|].
      unfold total. simpl. rewrite length_app. simpl. lia.
  - destruct (updateCard_deck_length x r s n st) as (Hl & Hp & Hc).
    split; [done|]. intros _ _. unfold total. by rewrite Hl, Hp.
  - split; [|intros Hne; exfalso; by apply Hne].
    unfold reset. cbn [snd code]. intros Hcode. lia.
Qed.

(** *** Drawing and peeking *)

(** X5.  [peek] shows what [draw] would take.  For a whole number [n]
    and a deck that is not empty, the cards [peek n] answers, without
    touching the store, are the cards [draw n] draws, and they are the
    ones that [draw n] puts at the end of the discard pile. *)
Theorem peek_predicts_draw (n : Z) (st : Store) :
  st.(deck) ≠ [] →
  ∃ top,
    peek n st = (st, mkResponse 200 (BCards top)) ∧
    (draw n st).2 =
      mkResponse 200 (BDrawn top (length st.(deck) - length top)) ∧
    (draw n st).1.(discardPile) = st.(discardPile) ++ top ∧
    top ++ (draw n st).1.(deck) = st.(deck).
Proof.
  intros Hne. exists (take (Z.to_nat (Z.max 1 n)) st.(deck)).
  rewrite draw_nonempty by done. simpl.
  split_and!; [done | | done | apply take_drop].
  do 2 f_equal. rewrite length_drop, length_take. lia.
Qed.

Lemma peek_predicts_draw_witness :
  initial.(deck) ≠ [] ∧
  ∃ top,
    peek 2 initial = (initial, mkResponse 200 (BCards top)) ∧
    (draw 2 initial).2 = mkResponse 200 (BDrawn top 50).
Proof.
  assert (initial.(deck) ≠ []) as Hne by discriminate.
  split; [exact Hne|].
  destruct (peek_predicts_draw 2 initial Hne) as (top & Hpeek & Hdraw & _).
  exists top. split; [exact Hpeek|].
  assert (top = take 2 makeDeck) as -> by (by injection Hpeek).
  exact Hdraw.
Defined.

(** X6.  Two draws in a row amount to one.  For whole numbers [n] and
    [m], both at least 1, when the first draw leaves cards in the deck,
    drawing [n] and then [m] cards moves the same cards, in the same
    order, as drawing [n + m] at once, and ends in the same store. *)
Theorem draw_then_draw (n m : Z) (st : Store) :
  (1 ≤ n)%Z → (1 ≤ m)%Z → Z.to_nat n < length st.(deck) →
  ∃ d1 d2 r1 r2,
    (draw n st).2 = mkResponse 200 (BDrawn d1 r1) ∧
    (draw m (draw n st).1).2 = mkResponse 200 (BDrawn d2 r2) ∧
    draw (n + m) st =
      ((draw m (draw n st).1).1, mkResponse 200 (BDrawn (d1 ++ d2) r2)).
Proof.
  intros Hn Hm Hlen.
  assert (st.(deck) ≠ []) as Hne by (intros Hd; rewrite Hd in Hlen; simpl in *;
      lia).
  assert (Z.to_nat (Z.max 1 n) = Z.to_nat n) as Hkn by lia.
  assert (Z.to_nat (Z.max 1 m) = Z.to_nat m) as Hkm by lia.
  assert (Z.to_nat (Z.max 1 (n + m)) = Z.to_nat n + Z.to_nat m) as Hknm by lia.
  pose proof (draw_nonempty n st Hne) as H1. cbv zeta in H1. rewrite Hkn in H1.
  assert ((draw n st).1.(deck) ≠ []) as Hne1.
  { rewrite H1. simpl. intros Hd%(f_equal length).
    rewrite length_drop in Hd. simpl in Hd. lia. }
  pose proof (draw_nonempty m _ Hne1) as H2. cbv zeta in H2.
  rewrite Hkm in H2.
  pose proof (draw_nonempty (n + m) st Hne) as H3. cbv zeta in H3.
  rewrite Hknm in H3.
  eexists _, _, _, _. split_and!.
  - by rewrite H1.
  - by rewrite H2.
  - rewrite H3, H2, H1. simpl.
    by rewrite drop_drop, <- app_assoc, take_take_drop.
Qed.

Lemma draw_then_draw_witness :
  (1 ≤ 2)%Z ∧ (1 ≤ 3)%Z ∧ Z.to_nat 2 < length initial.(deck) ∧
  (draw 3 (draw 2 initial).1).1 = (draw 5 initial).1.
Proof.
  assert (1 ≤ 2)%Z as H2 by lia.
  assert (1 ≤ 3)%Z as H3 by lia.
  assert (Z.to_nat 2 < length initial.(deck)) as Hlen by (vm_compute; lia).
  split_and!; [exact H2 | exact H3 | exact Hlen |].
  destruct (draw_then_draw 2 3 initial H2 H3 Hlen)
    as (d1 & d2 & r1 & r2 & _ & _ & Heq).
  change (2 + 3)%Z with 5%Z in Heq. by rewrite Heq.
Defined.

(** X7.  A draw that asks for at least as many cards as the deck holds
    takes them all, in order, onto the discard pile; the deck is then
    empty and every further draw is refused with status 400. *)
Theorem draw_exhausts (n m : Z) (st : Store) :
  st.(deck) ≠ [] → length st.(deck) ≤ Z.to_nat n →
  draw n st =
    (mkStore [] (st.(discardPile) ++ st.(deck)),
     mkResponse 200 (BDrawn st.(deck) 0)) ∧
  draw m (draw n st).1 =
    ((draw n st).1, mkResponse 400 (BError "Deck is empty")).
Proof.
  intros Hne Hlen.
  assert (draw n st =
    (mkStore [] (st.(discardPile) ++ st.(deck)),
     mkResponse 200 (BDrawn st.(deck) 0))) as Hdraw.
  { rewrite draw_nonempty by done. cbv zeta.
    rewrite take_ge, drop_ge by lia. done. }
  split; [exact Hdraw|]. rewrite Hdraw. by apply draw_empty.
Qed.

Lemma draw_exhausts_witness :
  initial.(deck) ≠ [] ∧ length initial.(deck) ≤ Z.to_nat 60 ∧
  draw 60 initial = (mkStore [] makeDeck, mkResponse 200 (BDrawn makeDeck 0)) ∧
  (draw 1 (draw 60 initial).1).2 = mkResponse 400 (BError "Deck is empty").
Proof.
  assert (initial.(deck) ≠ []) as Hne by discriminate.
  assert (length initial.(deck) ≤ Z.to_nat 60) as Hlen by (vm_compute; lia).
  split_and!; [exact Hne | exact Hlen | |].
  - apply (draw_exhausts 60 1 initial Hne Hlen).
  - destruct (draw_exhausts 60 1 initial Hne Hlen) as [_ Hrefused].
    by rewrite Hrefused.
Defined.

(** *** Adding, removing and renaming, followed by a lookup *)

(** A card pushed at the end of an array that does not have its id is
    the first card with that id. *)
Lemma first_with_id_snoc (d : list Card) c :
  id c ∉ id <$> d → first_with_id (d ++ [c]) (id c) (length d) c.
Proof.
  intros Hc. split_and!; [|done|].
  - by rewrite list_lookup_middle.
  - intros j c' Hj Hlt Hid. apply Hc. rewrite <- Hid.
    apply list_elem_of_fmap_2. apply list_elem_of_lookup. exists j.
    by rewrite lookup_app_l in Hj.
Qed.

(** In a list without duplicates, overwriting the one slot that holds
    [x] with something else leaves no [x]. *)
Lemma NoDup_insert_gone {A} (l : list A) i x y :
  NoDup l → l !! i = Some x → y ≠ x → x ∉ <[i:=y]> l.
Proof.
  intros Hnd Hi Hne (j & Hj)%list_elem_of_lookup.
  apply list_lookup_insert_Some in Hj as [(_ & ? & _) | (Hij & Hj)]; [done|].
  apply Hij. by eapply NoDup_lookup.
Qed.

(** In a store with distinct ids, the id of the card at a slot of the
    deck is nowhere else. *)
Lemma unique_ids_elsewhere st idx card :
  unique_ids st → st.(deck) !! idx = Some card →
  (id card ∉ id <$> delete idx st.(deck)) ∧
  (id card ∉ id <$> st.(discardPile)).
Proof.
  unfold unique_ids. rewrite ids_eq. intros Hnd Hidx.
  rewrite (delete_Permutation _ _ _ Hidx) in Hnd. simpl in Hnd.
  apply NoDup_cons in Hnd as [Hout _]. rewrite elem_of_app in Hout.
  split; intros ?; apply Hout; auto.
Qed.

(** X8.  What [addCard] creates can be looked up: when [addCard] answers
    201, the card it answers is the last card of the new deck, and
    [getCard] with its id answers that very card. *)
Theorem addCard_then_getCard (r s i : option string) (st : Store) :
  (addCard r s i st).2.(code) = 201 →
  ∃ c,
    addCard r s i st =
      (mkStore (st.(deck) ++ [c]) st.(discardPile),
       mkResponse 201 (BCard c)) ∧
    getCard c.(id) (addCard r s i st).1 =
      ((addCard r s i st).1, mkResponse 200 (BCard c)).
Proof.
  intros Hcode.
  destruct (addCard_cases r s i st) as [[_ Hno] | (c & Hfresh & Hadd)];
    [done|].
  exists c. split; [done|]. rewrite Hadd. cbn [fst].
  apply (getCard_in_deck _ _ (length st.(deck))). cbn [deck].
  apply first_with_id_snoc. intros Hin. apply Hfresh.
  apply elem_of_card_ids. by left.
Qed.

Lemma addCard_then_getCard_witness :
  (addCard (Some "Joker") (Some "Red") None initial).2.(code) = 201 ∧
  getCard "Joker-Red" (addCard (Some "Joker") (Some "Red") None initial).1 =
    ((addCard (Some "Joker") (Some "Red") None initial).1,
     mkResponse 200 (BCard (mkCard "Joker-Red" "Joker" "Red"))).
Proof.
  assert ((addCard (Some "Joker") (Some "Red") None initial).2.(code) = 201)
    as Hcode by reflexivity.
  split; [exact Hcode|].
  destruct (addCard_then_getCard _ _ _ _ Hcode) as (c & Hadd & Hget).
  assert (c = mkCard "Joker-Red" "Joker" "Red") as ->
    by (by injection Hadd).
  exact Hget.
Defined.

(** X9.  The same card cannot be added twice: once [addCard] has answered
    201, the same request on the resulting store is refused with status
    409 and changes nothing. *)
Theorem addCard_twice (r s i : option string) (st : Store) :
  (addCard r s i st).2.(code) = 201 →
  addCard r s i (addCard r s i st).1 =
    ((addCard r s i st).1,
     mkResponse 409 (BError "A card with that id already exists")).
Proof.
  unfold addCard.
  destruct (truthy r) as [r'|]; [|done].
  destruct (truthy s) as [s'|]; [|done].
  destruct (_ || _) eqn:Hfree; [done|]. intros _. cbn [fst deck discardPile].
  set (cardId := default _ _).
  assert (some (id_is cardId) (push st.(deck) (mkCard cardId r' s'))
            || some (id_is cardId) st.(discardPile) = true) as ->; [|done].
  apply id_taken. rewrite ids_mkStore. unfold push.
  rewrite fmap_app. set_solver.
Qed.

Lemma addCard_twice_witness :
  (addCard (Some "Joker") (Some "Red") None initial).2.(code) = 201 ∧
  (addCard (Some "Joker") (Some "Red") None
     (addCard (Some "Joker") (Some "Red") None initial).1).2.(code) = 409.
Proof.
  assert ((addCard (Some "Joker") (Some "Red") None initial).2.(code) = 201)
    as Hcode by reflexivity.
  split; [exact Hcode|].
  by rewrite (addCard_twice _ _ _ _ Hcode).
Defined.

(** X10.  A removed card is out of the deck but not gone.  In a store
    with distinct ids, once [removeCard x] has moved the card to the
    discard pile, [getCard x] still answers it, while [updateCard x] and a
    second [removeCard x] answer 404 and change nothing. *)
Theorem removed_card_lookups (x : string) (r s n : option string)
    (st : Store) (idx : nat) (card : Card) :
  unique_ids st → first_with_id st.(deck) x idx card →
  let st' := (removeCard x st).1 in
  getCard x st' = (st', mkResponse 200 (BCard card)) ∧
  updateCard x r s n st' =
    (st', mkResponse 404 (BError "Card not in deck")) ∧
  removeCard x st' =
    (st', mkResponse 404 (BError "Card not found in deck")).
Proof.
  intros Hu Hfirst st'. subst st'.
  rewrite (removeCard_found _ _ _ _ Hfirst). cbn [fst].
  destruct Hfirst as (Hidx & <- & _).
  destruct (unique_ids_elsewhere _ _ _ Hu Hidx) as [Hdeck Hpile].
  split_and!.
  - apply (getCard_in_pile _ _ (length st.(discardPile))); [done|].
    by apply first_with_id_snoc.
  - by apply updateCard_missing.
  - by apply removeCard_missing.
Qed.

Lemma removed_card_lookups_witness :
  unique_ids initial ∧
  first_with_id initial.(deck) "A-Clubs" 0 (mkCard "A-Clubs" "A" "Clubs") ∧
  getCard "A-Clubs" (removeCard "A-Clubs" initial).1 =
    ((removeCard "A-Clubs" initial).1,
     mkResponse 200 (BCard (mkCard "A-Clubs" "A" "Clubs"))) ∧
  (removeCard "A-Clubs" (removeCard "A-Clubs" initial).1).2.(code) = 404.
Proof.
  assert (unique_ids initial) as Hu.
  { apply (bool_decide_unpack _). vm_compute. exact I. }
  assert (first_with_id initial.(deck) "A-Clubs" 0
            (mkCard "A-Clubs" "A" "Clubs")) as Hfirst.
  { apply first_with_id_find. split; reflexivity. }
  split_and!; [exact Hu | exact Hfirst | |].
  - apply (removed_card_lookups "A-Clubs" None None None initial 0 _ Hu Hfirst).
  - destruct (removed_card_lookups "A-Clubs" None None None initial 0 _
                Hu Hfirst) as (_ & _ & Hrem).
    by rewrite Hrem.
Defined.

(** X11.  A rename moves the card from the old id to the new one.  In a
    store with distinct ids, after [updateCard x] has renamed a card to a
    free id [n], [getCard n] answers the renamed card, which sits where
    the card was, and [getCard x] answers 404. *)
Theorem renamed_card_lookups (x : string) (r s : option string) (n : string)
    (st : Store) (idx : nat) (card : Card) :
  unique_ids st → first_with_id st.(deck) x idx card →
  n ≠ "" → n ∉ ids st →
  let st' := (updateCard x r s (Some n) st).1 in
  ∃ renamed,
    id renamed = n ∧
    st'.(deck) !! idx = Some renamed ∧
    getCard n st' = (st', mkResponse 200 (BCard renamed)) ∧
    getCard x st' = (st', mkResponse 404 (BError "Card not found")).
Proof.
  intros Hu Hfirst Hn Hfree st'. subst st'.
  rewrite (updateCard_found _ _ _ _ _ _ _ Hfirst).
  assert (truthy (Some n) = Some n) as -> by by apply truthy_Some.
  rewrite bool_decide_eq_false_2 by done. cbv zeta. cbn [fst].
  destruct Hfirst as (Hidx & Hx & _).
  pose proof (lookup_lt_Some _ _ _ Hidx) as Hlt.
  exists (mkCard n (field_after r card.(CardStore.rank))
            (field_after s card.(CardStore.suit))).
  split_and!; [reflexivity | | |].
  - cbn [deck]. by rewrite list_lookup_insert_eq.
  - apply (getCard_in_deck _ _ idx). cbn [deck]. split_and!; [|done|].
    + by rewrite list_lookup_insert_eq.
    + intros j c Hj Hji Hid.
      rewrite list_lookup_insert_ne in Hj by lia.
      apply Hfree, elem_of_card_ids. left. rewrite <- Hid.
      apply list_elem_of_fmap_2. by eapply list_elem_of_lookup_2.
  - apply getCard_missing. rewrite ids_mkStore, list_fmap_insert. cbn [id].
    rewrite <- insert_app_l by (by rewrite length_fmap).
    rewrite <- ids_eq. apply NoDup_insert_gone; [done | |].
    + rewrite ids_eq, lookup_app_l by (by rewrite length_fmap).
      by rewrite list_lookup_fmap, Hidx, <- Hx.
    + intros ->. apply Hfree, elem_of_card_ids. left.
      rewrite <- Hx. apply list_elem_of_fmap_2.
      by eapply list_elem_of_lookup_2.
Qed.

Lemma renamed_card_lookups_witness :
  unique_ids initial ∧
  first_with_id initial.(deck) "A-Clubs" 0 (mkCard "A-Clubs" "A" "Clubs") ∧
  "Ace" ≠ "" ∧ ("Ace" ∉ ids initial) ∧
  (getCard "Ace" (updateCard "A-Clubs" None None (Some "Ace") initial).1).2 =
    mkResponse 200 (BCard (mkCard "Ace" "A" "Clubs")) ∧
  (getCard "A-Clubs"
     (updateCard "A-Clubs" None None (Some "Ace") initial).1).2.(code) = 404.
Proof.
  assert (unique_ids initial) as Hu.
  { apply (bool_decide_unpack _). vm_compute. exact I. }
  assert (first_with_id initial.(deck) "A-Clubs" 0
            (mkCard "A-Clubs" "A" "Clubs")) as Hfirst.
  { apply first_with_id_find. split; reflexivity. }
  assert ("Ace" ≠ "") as Hn by discriminate.
  assert ("Ace" ∉ ids initial) as Hfree.
  { apply (bool_decide_unpack _). vm_compute. exact I. }
  split_and!; [exact Hu | exact Hfirst | exact Hn | exact Hfree | |].
  - destruct (renamed_card_lookups "A-Clubs" None None "Ace" initial 0 _
                Hu Hfirst Hn Hfree) as (renamed & _ & Hl & Hget & _).
    assert (renamed = mkCard "Ace" "A" "Clubs") as <-
      by (by injection Hl).
    by rewrite Hget.
  - destruct (renamed_card_lookups "A-Clubs" None None "Ace" initial 0 _
                Hu Hfirst Hn Hfree) as (renamed & _ & _ & _ & Hgone).
    by rewrite Hgone.
Defined.

(** *** Listing the deck *)

Section Listing.

Variable toLowerCase : string → string.

(** X12.  [listCards] never changes the store.  It answers the cards of
    the deck that pass every filter given, in the order of the deck: a
    card is listed exactly when it is in the deck, its suit and the suit
    asked for are the same string once both are put in lower case, and
    likewise its rank and the rank asked for.  A filter that is absent or
    empty does not restrict; without filters the whole deck is answered.
    This holds whatever [toLowerCase] is, that of JavaScript included. *)
Theorem listCards_spec (suit rank : option string) (st : Store) :
  ∃ results,
    listCards toLowerCase suit rank st =
      (st, mkResponse 200 (BCards results)) ∧
    results `sublist_of` st.(deck) ∧
    (∀ c, c ∈ results ↔
          c ∈ st.(deck) ∧
          (∀ s, suit = Some s → s ≠ "" →
                toLowerCase c.(CardStore.suit) = toLowerCase s) ∧
          (∀ r, rank = Some r → r ≠ "" →
                toLowerCase c.(CardStore.rank) = toLowerCase r)) ∧
    (missing suit → missing rank → results = st.(deck)).
Proof.
  unfold listCards. eexists. split; [reflexivity|].
  destruct (truthy suit) as [s|] eqn:Hs; destruct (truthy rank) as [r|] eqn:Hr.
  all: try apply truthy_Some in Hs as [-> Hs'].
  all: try apply truthy_Some in Hr as [-> Hr'].
  all: try apply missing_truthy in Hs.
  all: try apply missing_truthy in Hr.
  all: split_and!.
  all: try (intros c; rewrite ?list_elem_of_filter; unfold suit_is, rank_is;
            split;
            [intros ?; split_and!; try tauto;
               intros ? ?; simplify_eq; unfold missing in *;
               try tauto; naive_solver
            |intros (? & Hsuit & Hrank); split_and?; eauto]).
  all: try (intros Hms Hmr; unfold missing in *; naive_solver).
  - etrans; apply sublist_filter.
  - apply sublist_filter.
  - apply sublist_filter.
  - done.
Qed.

End Listing.

(** *** Every order can come out of the shuffle *)

Lemma shuffle_loop_cons_random {A} r random calls i (arr : list A) :
  shuffle_loop (cons_random r random) (S calls) i arr =
  shuffle_loop random calls i arr.
Proof.
  revert calls arr. induction i as [|i IH]; intros calls arr; [done|].
  simpl. apply IH.
Qed.

(** The step of the loop at [i] can bring any element of the slots
    [0 .. i] to the slot [i]; the slots after [i] stay as they are. *)
Lemma swap_brings {A} (arr : list A) i j x :
  i < length arr → j ≤ i → arr !! j = Some x →
  swap arr i j !! i = Some x ∧
  drop (S i) (swap arr i j) = drop (S i) arr ∧
  take (S i) (swap arr i j) ≡ₚ take (S i) arr.
Proof.
  intros Hi Hj Hx.
  destruct (lookup_lt_is_Some_2 arr i Hi) as [a Ha].
  assert (drop (S i) (swap arr i j) = drop (S i) arr) as Hdrop.
  { unfold swap. rewrite Ha, Hx. by rewrite !drop_insert_lt by lia. }
  split_and!; [|done|].
  - unfold swap. rewrite Ha, Hx.
    destruct (decide (j = i)) as [->|Hne].
    + simplify_eq. rewrite list_lookup_insert_eq; [done|].
      by rewrite length_insert.
    + rewrite list_lookup_insert_ne by done.
      by rewrite list_lookup_insert_eq.
  - apply (Permutation_app_inv_r (drop (S i) arr)).
    rewrite <- Hdrop at 1. rewrite !take_drop. apply swap_Permutation.
Qed.

Lemma shuffle_loop_reaches {A} i (arr target : list A) :
  i ≤ length arr - 1 → length target = length arr →
  take (S i) target ≡ₚ take (S i) arr →
  drop (S i) target = drop (S i) arr →
  ∃ random, shuffle_loop random 0 i arr = target.
Proof.
  revert arr. induction i as [|i IH]; intros arr Hi Hlen Htake Hdrop.
  - exists (λ _, mkRand 0 0). simpl.
    destruct target as [|t target], arr as [|a arr]; simplify_eq/=; [done|].
    rewrite take_0 in Htake. by apply Permutation_singleton_inj in Htake as ->.
  - assert (S i < length arr) as Hlt by lia.
    destruct (lookup_lt_is_Some_2 target (S i)) as [x Hx]; [lia|].
    assert (x ∈ take (S (S i)) arr) as Hin.
    { rewrite <- Htake. apply elem_of_take. exists (S i). split; [done|lia]. }
    apply elem_of_take in Hin as (j & Hj & Hjlt).
    destruct (swap_brings arr (S i) j x Hlt ltac:(lia) Hj)
      as (Hsx & Hsdrop & Hstake).
    set (arr' := swap arr (S i) j) in *.
    assert (length arr' = length arr) as Hlen'.
    { apply Permutation_length, swap_Permutation. }
    destruct (IH arr') as [random Hrandom].
    + lia.
    + lia.
    + apply (Permutation_app_inv_r [x]).
      rewrite <- (take_S_r target (S i) x Hx).
      rewrite <- (take_S_r arr' (S i) x Hsx).
      by rewrite Htake, Hstake.
    + rewrite (drop_S target x (S i) Hx), (drop_S arr' x (S i) Hsx).
      by rewrite Hdrop, Hsdrop.
    + exists (cons_random (mkRand j (S i - j)) random).
      cbn [shuffle_loop]. rewrite shuffle_loop_cons_random.
      cbn [cons_random].
      rewrite floor_times_onto by lia. exact Hrandom.
Qed.

Lemma shuffleArray_reaches {A} (arr target : list A) :
  target ≡ₚ arr → ∃ random, shuffleArray random arr = target.
Proof.
  intros Hperm. pose proof (Permutation_length Hperm) as Hlen.
  apply shuffle_loop_reaches; [lia | done | |].
  - rewrite !take_ge by lia. done.
  - rewrite !drop_ge by lia. done.
Qed.

(** X13.  The shuffle can produce every order: for each rearrangement of
    the deck there are random draws on which [shuffle] leaves the deck in
    exactly that order, the discard pile untouched. *)
Theorem shuffle_reaches_every_order (st : Store) (target : list Card) :
  target ≡ₚ st.(deck) →
  ∃ random,
    shuffle random st =
      (mkStore target st.(discardPile),
       mkResponse 200 (BStatus "shuffled" (length st.(deck)))).
Proof.
  intros Hperm. destruct (shuffleArray_reaches _ _ Hperm) as [random Hr].
  exists random. unfold shuffle. rewrite Hr.
  by rewrite (Permutation_length Hperm).
Qed.

Lemma shuffle_reaches_every_order_witness :
  reverse initial.(deck) ≡ₚ initial.(deck) ∧
  ∃ random, (shuffle random initial).1.(deck) = reverse makeDeck.
Proof.
  assert (reverse initial.(deck) ≡ₚ initial.(deck)) as Hperm
    by apply reverse_Permutation.
  split; [exact Hperm|].
  destruct (shuffle_reaches_every_order initial _ Hperm) as [random Hr].
  exists random. by rewrite Hr.
Defined.

End CardStoreExtra.

(** ** The library CLI: further properties *)

Module BookStoreExtra.
Import BookStore BookVocabulary BookStoreSpec.

Section Properties.

Context {nonint : Type}.
Variable Number : string → number nonint.
Variable ToString : number nonint → string.
Variable trim : string → string.
Variable split : string → list string.
Variable toLowerCase : string → string.

Implicit Types w : World nonint.
Implicit Types b : Book nonint.
Implicit Types bs : list (Book nonint).

(** *** Finding a book by its id *)

Lemma findIndex_first bs z idx b :
  first_book_with_id bs z idx b → findIndex (id_is (Int z)) bs = Some idx.
Proof.
  revert idx. induction bs as [|b0 bs IH]; intros idx (Hidx & Hid & Hfirst).
  - done.
  - simpl. destruct idx as [|idx]; simpl in *.
    + simplify_eq. by rewrite bool_decide_eq_true_2.
    + rewrite bool_decide_eq_false_2 by (apply (Hfirst 0); [done | lia]).
      rewrite (IH idx); [done|]. split_and!; [done..|].
      intros j b' Hj Hlt. apply (Hfirst (S j)); [done | lia].
Qed.

Lemma findIndex_absent (x : number nonint) bs :
  (∀ b, b ∈ bs → x ≠ Int (id b)) → findIndex (id_is x) bs = None.
Proof.
  induction bs as [|b0 bs IH]; intros Hno; [done|]. simpl.
  assert (id_is x b0 = false) as ->.
  { destruct x as [|z|y]; simpl; try done.
    apply bool_decide_eq_false_2. intros <-. apply (Hno b0); [left|done]. }
  rewrite IH; [done|]. intros b Hb. apply Hno. by right.
Qed.

Lemma findIndex_found (x : number nonint) bs idx :
  findIndex (id_is x) bs = Some idx →
  ∃ b, x = Int (id b) ∧ first_book_with_id bs (id b) idx b.
Proof.
  revert idx. induction bs as [|b0 bs IH]; intros idx; simpl; [done|].
  destruct (id_is x b0) eqn:Hb0.
  - intros [= <-]. exists b0. destruct x as [|z|y]; simpl in Hb0; try done.
    apply bool_decide_eq_true in Hb0 as <-.
    split; [done|]. split_and!; [done..|]. intros; lia.
  - destruct (findIndex (id_is x) bs) as [i|]; simpl; [|done].
    intros [= <-]. destruct (IH i eq_refl) as (b & -> & Hidx & Hid & Hfirst).
    exists b. split; [done|]. split_and!; [done..|].
    intros [|j] b' Hj Hlt; simpl in *.
    + simplify_eq. simpl in Hb0. by apply bool_decide_eq_false in Hb0.
    + apply (Hfirst j); [done | lia].
Qed.

(** *** [remove] *)

Lemma cmdRemove_usage arg w :
  number_truthy (Number arg) = false →
  cmdRemove Number arg w =
    (Some tt,
     mkWorld (books w) (nextId w) (stdin w)
       (console w ++ [Log "Usage: remove <id>"]) (closed w)).
Proof. intros Hx. unfold cmdRemove. by rewrite Hx. Qed.

Lemma cmdRemove_absent arg w :
  number_truthy (Number arg) = true →
  findIndex (id_is (Number arg)) (books w) = None →
  cmdRemove Number arg w =
    (Some tt,
     mkWorld (books w) (nextId w) (stdin w)
       (console w ++ [Log "Book not found."]) (closed w)).
Proof.
  intros Hx Hf. unfold cmdRemove. rewrite Hx. cbn [negb].
  rewrite bind_get_books. by rewrite Hf.
Qed.

Lemma cmdRemove_found arg w idx b :
  number_truthy (Number arg) = true →
  findIndex (id_is (Number arg)) (books w) = Some idx →
  books w !! idx = Some b →
  cmdRemove Number arg w =
    (Some tt,
     mkWorld (delete idx (books w)) (nextId w) (stdin w)
       (console w ++ [LogBook "Removed:" b]) (closed w)).
Proof.
  intros Hx Hf Hidx. unfold cmdRemove. rewrite Hx. cbn [negb].
  rewrite bind_get_books. by rewrite Hf, Hidx.
Qed.

(** X14.  [remove] asks nothing and never touches the counter.  When its
    argument does not convert to a usable id ([NaN] or zero) it prints the
    usage line, and when no book has the id it prints "Book not found.";
    in both cases the list of books is as before.  Otherwise it takes out
    the first book with that id, the other books keeping their order, and
    reports it. *)
Theorem cmdRemove_spec (arg : string) w :
  let w' := (cmdRemove Number arg w).2 in
  (cmdRemove Number arg w).1 = Some tt ∧
  nextId w' = nextId w ∧ stdin w' = stdin w ∧ closed w' = closed w ∧
  (number_truthy (Number arg) = false →
     books w' = books w ∧
     console w' = console w ++ [Log "Usage: remove <id>"]) ∧
  (number_truthy (Number arg) = true →
   (∀ b, b ∈ books w → Number arg ≠ Int (id b)) →
     books w' = books w ∧
     console w' = console w ++ [Log "Book not found."]) ∧
  (∀ idx b,
     Number arg = Int (id b) → id b ≠ 0%Z →
     first_book_with_id (books w) (id b) idx b →
     books w' = take idx (books w) ++ drop (S idx) (books w) ∧
     console w' = console w ++ [LogBook "Removed:" b]).
Proof using Type.
  clear ToString. intros w'. subst w'.
  destruct (number_truthy (Number arg)) eqn:Hx.
  - destruct (findIndex (id_is (Number arg)) (books w)) as [idx|] eqn:Hf.
    + destruct (findIndex_found _ _ _ Hf) as (b & Hb & Hfirst).
      pose proof Hfirst as (Hidx & _).
      rewrite (cmdRemove_found _ _ _ _ Hx Hf Hidx).
      cbn [fst snd books nextId stdin console closed].
      split_and!; try done.
      * intros _ Hno. exfalso. apply (Hno b); [|done].
        by eapply list_elem_of_lookup_2.
      * intros idx' b' Hb' _ Hfirst'.
        rewrite Hb' in Hf.
        rewrite (findIndex_first _ _ _ _ Hfirst') in Hf.
        destruct Hfirst' as (Hidx' & _). simplify_eq.
        by rewrite delete_take_drop.
    + rewrite (cmdRemove_absent _ _ Hx Hf).
      cbn [fst snd books nextId stdin console closed].
      split_and!; try done.
      intros idx' b' Hb' _ Hfirst'. rewrite Hb' in Hf.
      by rewrite (findIndex_first _ _ _ _ Hfirst') in Hf.
  - rewrite (cmdRemove_usage _ _ Hx).
    cbn [fst snd books nextId stdin console closed].
    split_and!; try done.
    intros idx' b' Hb' Hz _. rewrite Hb' in Hx. simpl in Hx.
    apply negb_false_iff in Hx. by apply Z.eqb_eq in Hx.
Qed.

(** *** [clear] *)

(** X15.  [clear] empties the list of books exactly when the answer to
    its question, trimmed and put in lower case, is "yes"; on any other
    answer the list is as before.  The counter is not reset either way.
    [trim] and [toLowerCase] are those of the language, whatever they
    are. *)
Theorem cmdClear_spec w (answer : string) (rest : list string) :
  stdin w = answer :: rest →
  let w' := (cmdClear trim toLowerCase w).2 in
  (cmdClear trim toLowerCase w).1 = Some tt ∧
  nextId w' = nextId w ∧ stdin w' = rest ∧
  (toLowerCase (trim answer) = "yes" →
     books w' = [] ∧
     console w' =
       console w ++
         [Ask "Are you sure you want to clear all books? (yes): ";
          Log "Cleared."]) ∧
  (toLowerCase (trim answer) ≠ "yes" →
     books w' = books w ∧
     console w' =
       console w ++
         [Ask "Are you sure you want to clear all books? (yes): ";
          Log "Aborted."]).
Proof using Type.
  clear Number ToString. intros Hin w'. subst w'.
  unfold cmdClear, bind, question, write, set_books, push. rewrite Hin.
  cbn [stdin books nextId console closed fst snd].
  case_decide; cbn [stdin books nextId console closed fst snd];
    rewrite <- ?app_assoc; split_and!; done.
Qed.

(** *** [update] *)

Lemma cmdUpdate_usage arg w :
  number_truthy (Number arg) = false →
  cmdUpdate Number ToString trim arg w =
    (Some tt,
     mkWorld (books w) (nextId w) (stdin w)
       (console w ++ [Log "Usage: update <id>"]) (closed w)).
Proof. intros Hx. unfold cmdUpdate. by rewrite Hx. Qed.

Lemma cmdUpdate_absent arg w :
  number_truthy (Number arg) = true →
  findIndex (id_is (Number arg)) (books w) = None →
  cmdUpdate Number ToString trim arg w =
    (Some tt,
     mkWorld (books w) (nextId w) (stdin w)
       (console w ++ [Log "Book not found."]) (closed w)).
Proof.
  intros Hx Hf. unfold cmdUpdate. rewrite Hx. cbn [negb].
  rewrite bind_get_books. by rewrite Hf.
Qed.

Lemma cmdUpdate_found arg w idx b t a y s rest :
  number_truthy (Number arg) = true →
  findIndex (id_is (Number arg)) (books w) = Some idx →
  books w !! idx = Some b →
  stdin w = t :: a :: y :: s :: rest →
  ∃ out,
    cmdUpdate Number ToString trim arg w =
      (Some tt,
       mkWorld (<[idx := book_after_update Number trim b t a y s]> (books w))
         (nextId w) rest
         (console w ++ out ++
            [LogBook "Saved:" (book_after_update Number trim b t a y s)])
         (closed w)).
Proof.
  intros Hx Hf Hidx Hin. unfold cmdUpdate. rewrite Hx. cbn [negb].
  rewrite bind_get_books. rewrite Hf, Hidx.
  unfold bind, question, write, get_books, set_books, push.
  cbn [stdin books nextId console closed]. rewrite Hin.
  cbn [stdin books nextId console closed].
  rewrite !truthy_string. unfold book_after_update.
  eexists [_; _; _; _; _].
  destruct (decide (trim t = "")), (decide (trim a = "")),
    (decide (trim y = "")), (decide (trim s = ""));
    cbn [id title author year isbn]; rewrite <- !app_assoc;
    destruct b; reflexivity.
Qed.

(** X16.  [update] on the id of a book of the store asks four questions
    and then overwrites that book in place: an answer that is empty once
    trimmed keeps the field, any other answer replaces it by the trimmed
    answer, the year by the trimmed answer converted to a number.  The id
    of the book, the other books, the length of the list and the counter
    stay as they were, and with four answers that are empty once trimmed
    the store is exactly as before. *)
Theorem cmdUpdate_spec (arg : string) w (idx : nat) b (t a y s : string)
    (rest : list string) :
  Number arg = Int (id b) → id b ≠ 0%Z →
  first_book_with_id (books w) (id b) idx b →
  stdin w = t :: a :: y :: s :: rest →
  let w' := (cmdUpdate Number ToString trim arg w).2 in
  ∃ b',
    (cmdUpdate Number ToString trim arg w).1 = Some tt ∧
    books w' = <[idx := b']> (books w) ∧
    nextId w' = nextId w ∧ stdin w' = rest ∧
    last (console w') = Some (LogBook "Saved:" b') ∧
    id b' = id b ∧
    (title b' = if decide (trim t = "") then title b else trim t) ∧
    (author b' = if decide (trim a = "") then author b else trim a) ∧
    (year b' =
       if decide (trim y = "") then year b else Some (Number (trim y))) ∧
    (isbn b' = if decide (trim s = "") then isbn b else Some (trim s)) ∧
    (trim t = "" → trim a = "" → trim y = "" → trim s = "" →
       books w' = books w).
Proof.
  intros Hx Hz Hfirst Hin w'. subst w'.
  assert (number_truthy (Number arg) = true) as Htruthy.
  { rewrite Hx. simpl. apply negb_true_iff. by apply Z.eqb_neq. }
  pose proof (findIndex_first _ _ _ _ Hfirst) as Hf. rewrite <- Hx in Hf.
  pose proof Hfirst as (Hidx & _).
  destruct (cmdUpdate_found _ _ _ _ _ _ _ _ _ Htruthy Hf Hidx Hin)
    as (out & ->).
  exists (book_after_update Number trim b t a y s).
  cbn [fst snd books nextId stdin console closed].
  split_and!; try done.
  - by rewrite app_assoc, last_snoc.
  - intros Ht Ha Hy Hs. unfold book_after_update.
    rewrite !decide_True by done. apply list_insert_id.
    by destruct b.
Qed.

(** X17.  [update] is refused without a question being asked when its
    argument does not convert to a usable id ([NaN] or zero), with the
    usage line, or when no book has the id, with "Book not found.": the
    store and the pending input are as before. *)
Theorem cmdUpdate_refused (arg : string) w :
  number_truthy (Number arg) = false ∨
  (∀ b, b ∈ books w → Number arg ≠ Int (id b)) →
  let w' := (cmdUpdate Number ToString trim arg w).2 in
  (cmdUpdate Number ToString trim arg w).1 = Some tt ∧
  books w' = books w ∧ nextId w' = nextId w ∧ stdin w' = stdin w ∧
  console w' =
    console w ++
      [Log (if number_truthy (Number arg) then "Book not found."
            else "Usage: update <id>")].
Proof.
  intros Hrefused w'. subst w'.
  destruct (number_truthy (Number arg)) eqn:Hx.
  - destruct Hrefused as [? | Hno]; [done|].
    by rewrite (cmdUpdate_absent _ _ Hx (findIndex_absent _ _ Hno)).
  - by rewrite (cmdUpdate_usage _ _ Hx).
Qed.

(** *** One command, one change *)

Lemma store_step_after w w1 w2 :
  store_step w w1 → books w2 = books w1 → nextId w2 = nextId w1 →
  store_step w w2.
Proof.
  intros Hstep Hb Hn. destruct Hstep.
  - apply step_same; congruence.
  - eapply step_add; [| done |]; congruence.
  - eapply step_update; [done | done | |]; congruence.
  - eapply step_remove; [done | |]; congruence.
  - apply step_clear; congruence.
Qed.

Lemma store_step_before w0 w w1 :
  store_step w w1 → books w0 = books w → nextId w0 = nextId w →
  store_step w0 w1.
Proof.
  intros Hstep Hb Hn. destruct Hstep.
  - apply step_same; congruence.
  - eapply step_add; [| |]; rewrite ?Hb, ?Hn; done.
  - eapply step_update; rewrite ?Hb, ?Hn; done.
  - eapply step_remove; rewrite ?Hb, ?Hn; done.
  - apply step_clear; congruence.
Qed.

Lemma store_kept_one_step {A} (m : IO (nonint:=nonint) A) :
  store_kept m → one_step m.
Proof. intros Hm w. destruct (Hm w). by apply step_same. Qed.

Lemma store_kept_ret {A} (a : A) : store_kept (ret (nonint:=nonint) a).
Proof. by intros w. Qed.

Lemma store_kept_write o : store_kept (write (nonint:=nonint) o).
Proof. by intros w. Qed.

Lemma store_kept_question prompt :
  store_kept (question (nonint:=nonint) prompt).
Proof. intros w. unfold question. by destruct (stdin w). Qed.

Lemma store_kept_get_books : store_kept (get_books (nonint:=nonint)).
Proof. by intros w. Qed.

Lemma store_kept_rl_close : store_kept (rl_close (nonint:=nonint)).
Proof. by intros w. Qed.

Lemma store_kept_bind {A B} (m : IO A) (k : A → IO (nonint:=nonint) B) :
  store_kept m → (∀ a, store_kept (k a)) → store_kept (bind m k).
Proof.
  intros Hm Hk w. unfold bind. destruct (Hm w) as [Hb Hn].
  destruct (m w) as [[a|] w1]; simpl in *; [|done].
  destruct (Hk a w1) as [Hb' Hn']. split; congruence.
Qed.

Lemma store_kept_listBooks arr : store_kept (listBooks (nonint:=nonint) arr).
Proof. unfold listBooks. case_decide; apply store_kept_write. Qed.

Lemma store_kept_cmdFind arg : store_kept (cmdFind ToString toLowerCase arg).
Proof.
  unfold cmdFind. destruct (truthy _); [|apply store_kept_write].
  apply store_kept_bind; [apply store_kept_get_books|]. intros bs.
  cbv zeta. case_decide; [apply store_kept_write | apply store_kept_listBooks].
Qed.

Lemma one_step_then_write (m : IO (nonint:=nonint) unit) o :
  one_step m → one_step (bind m (λ _, write o)).
Proof.
  intros Hm w. unfold bind. specialize (Hm w).
  destruct (m w) as [[[]|] w1]; simpl in *; [|done].
  by eapply store_step_after.
Qed.

Lemma one_step_cmdAdd : one_step (cmdAdd Number trim).
Proof using Type.
  clear ToString. intros w.
  destruct (cmdAdd_store Number trim w) as [[Hb Hn] | Hfull].
  - by apply step_same.
  - destruct Hfull as (t & a & y & s & rest & Hin & Ht).
    rewrite (cmdAdd_adds _ _ _ _ _ _ _ _ Hin Ht). cbn [snd].
    by eapply step_add.
Qed.

Lemma one_step_cmdRemove arg : one_step (cmdRemove Number arg).
Proof using Type.
  clear ToString. intros w. destruct (number_truthy (Number arg)) eqn:Hx.
  - destruct (findIndex (id_is (Number arg)) (books w)) as [idx|] eqn:Hf.
    + destruct (findIndex_found _ _ _ Hf) as (b & _ & Hidx & _).
      rewrite (cmdRemove_found _ _ _ _ Hx Hf Hidx).
      eapply step_remove; [by eapply lookup_lt_Some | done | done].
    + rewrite (cmdRemove_absent _ _ Hx Hf). by apply step_same.
  - rewrite (cmdRemove_usage _ _ Hx). by apply step_same.
Qed.

(** [update] cut short by the end of the input leaves the store as it
    was. *)
Lemma cmdUpdate_cut_short arg w :
  length (stdin w) < 4 →
  books (cmdUpdate Number ToString trim arg w).2 = books w ∧
  nextId (cmdUpdate Number ToString trim arg w).2 = nextId w.
Proof.
  intros Hlen. unfold cmdUpdate. cbv zeta.
  destruct (negb _); [done|]. rewrite bind_get_books.
  destruct (findIndex _ _) as [idx|]; [|done].
  destruct (books w !! idx) as [b|]; [|done].
  unfold bind, question, write, get_books, set_books, push.
  cbn [stdin books nextId console closed].
  destruct (stdin w) as [|t [|a [|y [|s rest]]]];
    cbn [stdin books nextId console closed fst snd hangup];
    [done.. | simpl in Hlen; lia].
Qed.

Lemma one_step_cmdUpdate arg : one_step (cmdUpdate Number ToString trim arg).
Proof.
  intros w. destruct (number_truthy (Number arg)) eqn:Hx.
  - destruct (findIndex (id_is (Number arg)) (books w)) as [idx|] eqn:Hf.
    + destruct (findIndex_found _ _ _ Hf) as (b & _ & Hidx & _).
      destruct (decide (length (stdin w) < 4)) as [Hshort | Hlong].
      * destruct (cmdUpdate_cut_short arg w Hshort). by apply step_same.
      * destruct (stdin w) as [|t [|a [|y [|s rest]]]] eqn:Hin;
          try (simpl in Hlong; lia).
        destruct (cmdUpdate_found _ _ _ _ _ _ _ _ _ Hx Hf Hidx Hin)
          as (out & ->).
        apply (step_update _ _ idx b (book_after_update Number trim b t a y s));
          [exact Hidx | reflexivity | reflexivity | reflexivity].
    + rewrite (cmdUpdate_absent _ _ Hx Hf). by apply step_same.
  - rewrite (cmdUpdate_usage _ _ Hx). by apply step_same.
Qed.

Lemma one_step_cmdClear : one_step (cmdClear (nonint:=nonint) trim toLowerCase).
Proof using Type.
  clear Number ToString. intros w.
  unfold cmdClear, bind, question, write, set_books.
  destruct (stdin w) as [|answer rest];
    cbn [stdin books nextId console closed fst snd hangup];
    [by apply step_same|].
  case_decide; cbn [snd]; [by apply step_clear | by apply step_same].
Qed.

Lemma one_step_handleLine line : one_step (handleLine Number ToString trim
    split toLowerCase line).
Proof.
  unfold handleLine. cbv zeta. repeat case_decide.
  - apply store_kept_one_step, store_kept_write.
  - apply one_step_then_write, store_kept_one_step, store_kept_write.
  - apply one_step_then_write, store_kept_one_step, store_kept_bind;
      [apply store_kept_get_books | apply store_kept_listBooks].
  - apply one_step_then_write, one_step_cmdAdd.
  - apply one_step_then_write, store_kept_one_step, store_kept_cmdFind.
  - apply one_step_then_write, one_step_cmdUpdate.
  - apply one_step_then_write, one_step_cmdRemove.
  - apply one_step_then_write, one_step_cmdClear.
  - apply store_kept_one_step, store_kept_rl_close.
  - apply one_step_then_write, store_kept_one_step, store_kept_write.
Qed.

Lemma one_step_on_event w : store_step w (on_event Number ToString trim split
    toLowerCase w).
Proof.
  unfold on_event. destruct (closed w); [by apply step_same|].
  destruct (stdin w) as [|line rest]; [by apply step_same|].
  eapply store_step_before; [apply one_step_handleLine | done | done].
Qed.

(** A store step keeps a tidy store tidy. *)
Lemma store_step_tidy w w' : tidy w → store_step w w' → tidy w'.
Proof.
  intros [Hbelow Hnd] Hstep. unfold tidy, below_counter, ids in *.
  destruct Hstep as [w w' Hb Hn | w w' b Hb Hid Hn
                     | w w' idx b0 b Hidx Hid Hb Hn
                     | w w' idx Hidx Hb Hn | w w' Hb Hn];
    rewrite Hb, Hn.
  - done.
  - split.
    + intros b'. rewrite elem_of_app, list_elem_of_singleton.
      intros [Hb' | ->]; [apply Hbelow in Hb'|]; lia.
    + rewrite fmap_app. simpl. rewrite <- Permutation_cons_append.
      apply NoDup_cons. split; [|done].
      intros (b' & Hid' & Hb')%list_elem_of_fmap.
      apply Hbelow in Hb'. lia.
  - split.
    + intros b' (j & Hj)%list_elem_of_lookup.
      apply list_lookup_insert_Some in Hj as [(-> & <- & _) | (_ & Hj)].
      * rewrite Hid. apply Hbelow. by eapply list_elem_of_lookup_2.
      * apply Hbelow. by eapply list_elem_of_lookup_2.
    + rewrite list_fmap_insert, Hid, list_insert_id; [done|].
      by rewrite list_lookup_fmap, Hidx.
  - split.
    + intros b' Hb'%list_elem_of_delete_inv. by apply Hbelow.
    + rewrite list_fmap_delete.
      eapply (sublist_NoDup _ (id <$> books w)); [done | apply sublist_delete].
  - split; [by intros b' ?%elem_of_nil | apply NoDup_nil_2].
Qed.

Lemma session_tidy n w : tidy w → tidy (session Number ToString trim split
    toLowerCase n w).
Proof.
  revert w. induction n as [|n IH]; intros w Hw; [done|]. simpl.
  apply IH. eapply store_step_tidy; [done | apply one_step_on_event].
Qed.

(** X18.  One event of the session changes the store in one of five ways
    and no other: not at all; by one book appended under the next id, the
    counter moving up by one; by one book overwritten in place by a book
    with the same id; by one book taken out; or by all books taken out.
    In the last four the counter keeps or raises its value: it is never
    reset. *)
Theorem on_event_store_step w :
  store_step w (on_event Number ToString trim split toLowerCase w) ∧
  (nextId w ≤ nextId (on_event Number ToString trim split toLowerCase w) ≤
      nextId w + 1)%Z.
Proof.
  pose proof (one_step_on_event w) as Hstep. split; [done|].
  destruct Hstep; lia.
Qed.

(** X19.  The ids of the books stay pairwise distinct: in a session that
    starts from a store with distinct ids and a counter seeded from it,
    every store reached has distinct ids. *)
Theorem session_ids_distinct w0 (n : nat) :
  nextId w0 = seedNextId (books w0) → NoDup (ids w0) →
  NoDup (ids (session Number ToString trim split toLowerCase n w0)).
Proof.
  intros Hseed Hnd.
  apply (session_tidy n w0). split; [|done].
  by apply seeded_below_counter.
Qed.

(** *** Commands that only read, and the end of the session *)

Lemma handleLine_unfold line :
  handleLine Number ToString trim split toLowerCase line =
    let c := command_word trim split toLowerCase line in
    let arg := argument trim split line in
    if decide (c = "") then write LinePrompt
    else if decide (c = "help") then bind printHelp (λ _, write LinePrompt)
    else if decide (c = "list") then
      bind (bind get_books (λ bs, listBooks bs)) (λ _, write LinePrompt)
    else if decide (c = "add") then
      bind (cmdAdd Number trim) (λ _, write LinePrompt)
    else if decide (c = "find") then
      bind (cmdFind ToString toLowerCase arg) (λ _, write LinePrompt)
    else if decide (c = "update") then
      bind (cmdUpdate Number ToString trim arg) (λ _, write LinePrompt)
    else if decide (c = "remove") then
      bind (cmdRemove Number arg) (λ _, write LinePrompt)
    else if decide (c = "clear") then bind (cmdClear trim toLowerCase) (λ _,
        write LinePrompt)
    else if decide (c = "exit") then rl_close
    else
      bind
        (write (Log "Unknown command. Type 'help' to see available commands."))
        (λ _, write LinePrompt).
Proof. reflexivity. Qed.

Lemma store_kept_then_write (m : IO (nonint:=nonint) unit) o :
  store_kept m → store_kept (bind m (λ _, write o)).
Proof. intros Hm. apply store_kept_bind; [done|]. intros _. by intros w. Qed.

(** X20.  Only [add], [update], [remove] and [clear] can change the
    store: a line whose command word (the first word of the trimmed line,
    split on white space and put in lower case, as the language does
    these) is any other, the empty line and an unknown command included,
    leaves the books and the counter as they were. *)
Theorem handleLine_read_only (line : string) w :
  command_word trim split toLowerCase line ∉ ["add"; "update"; "remove";
      "clear"] →
  books (handleLine Number ToString trim split toLowerCase line w).2 = books w ∧
  nextId (handleLine Number ToString trim split toLowerCase line w).2 = nextId
      w.
Proof.
  rewrite !not_elem_of_cons. intros (Hadd & Hupd & Hrem & Hclr & _).
  rewrite handleLine_unfold. cbv zeta. revert w.
  change (store_kept
    (if decide (command_word trim split toLowerCase line = "") then write
        LinePrompt
     else if decide (command_word trim split toLowerCase line = "help") then
       bind printHelp (λ _, write LinePrompt)
     else if decide (command_word trim split toLowerCase line = "list") then
       bind (bind get_books (λ bs, listBooks (nonint:=nonint) bs))
         (λ _, write LinePrompt)
     else if decide (command_word trim split toLowerCase line = "add") then
       bind (cmdAdd Number trim) (λ _, write LinePrompt)
     else if decide (command_word trim split toLowerCase line = "find") then
       bind (cmdFind ToString toLowerCase (argument trim split line)) (λ _,
           write LinePrompt)
     else if decide (command_word trim split toLowerCase line = "update") then
       bind (cmdUpdate Number ToString trim (argument trim split line))
         (λ _, write LinePrompt)
     else if decide (command_word trim split toLowerCase line = "remove") then
       bind (cmdRemove Number (argument trim split line)) (λ _, write
           LinePrompt)
     else if decide (command_word trim split toLowerCase line = "clear") then
       bind (cmdClear trim toLowerCase) (λ _, write LinePrompt)
     else if decide (command_word trim split toLowerCase line = "exit") then
         rl_close
     else
       bind
         (write
            (Log "Unknown command. Type 'help' to see available commands."))
         (λ _, write LinePrompt))).
  repeat case_decide; try done;
    first
      [ apply store_kept_write
      | apply store_kept_rl_close
      | apply store_kept_then_write;
        first
          [ apply store_kept_write
          | apply store_kept_cmdFind
          | apply store_kept_bind;
            [apply store_kept_get_books | apply store_kept_listBooks] ] ].
Qed.

Lemma session_closed n w :
  closed w = true → session Number ToString trim split toLowerCase n w = w.
Proof.
  intros Hc. induction n as [|n IH]; [done|]. simpl.
  unfold on_event. by rewrite Hc.
Qed.

(** X21.  [exit] ends the session at once: on a line whose command word
    is "exit", in any letter case, the farewell is printed, the interface
    is closed, and whatever lines follow are never read; the store is
    left as it was. *)
Theorem exit_ends_session w (line : string) (rest : list string) (n : nat) :
  closed w = false → stdin w = line :: rest → command_word trim split
      toLowerCase line = "exit" →
  session Number ToString trim split toLowerCase (S n) w =
    mkWorld (books w) (nextId w) rest (console w ++ [Goodbye]) true.
Proof.
  intros Hopen Hin Hc.
  assert (on_event Number ToString trim split toLowerCase w =
          mkWorld (books w) (nextId w) rest (console w ++ [Goodbye]) true)
    as Hev.
  { unfold on_event. rewrite Hopen, Hin, handleLine_unfold. cbv zeta.
    rewrite Hc. reflexivity. }
  simpl. rewrite Hev. by apply session_closed.
Qed.

(** *** Input is read in order, output only grows *)

Lemma orderly_ret {A} (a : A) : orderly (ret (nonint:=nonint) a).
Proof. intros w. split; [by exists [] | exists []; by rewrite app_nil_r]. Qed.

Lemma orderly_write o : orderly (write (nonint:=nonint) o).
Proof. intros w. split; [by exists [] | by exists [o]]. Qed.

Lemma orderly_get_books : orderly (get_books (nonint:=nonint)).
Proof. intros w. split; [by exists [] | exists []; by rewrite app_nil_r]. Qed.

Lemma orderly_set_books bs : orderly (set_books (nonint:=nonint) bs).
Proof. intros w. split; [by exists [] | exists []; by rewrite app_nil_r]. Qed.

Lemma orderly_post_increment :
  orderly (post_increment_nextId (nonint:=nonint)).
Proof. intros w. split; [by exists [] | exists []; by rewrite app_nil_r]. Qed.

Lemma orderly_rl_close : orderly (rl_close (nonint:=nonint)).
Proof. intros w. split; [by exists [] | by exists [Goodbye]]. Qed.

Lemma orderly_question prompt : orderly (question (nonint:=nonint) prompt).
Proof.
  intros w. unfold question, hangup, push.
  destruct (stdin w) as [|line rest] eqn:Hin; simpl.
  - split; [by exists [] | exists [Ask prompt; Goodbye]].
    by rewrite <- app_assoc.
  - split; [by exists [line] | by exists [Ask prompt]].
Qed.

Lemma orderly_bind {A B} (m : IO A) (k : A → IO (nonint:=nonint) B) :
  orderly m → (∀ a, orderly (k a)) → orderly (bind m k).
Proof.
  intros Hm Hk w. unfold bind.
  destruct (Hm w) as [[used1 Hu1] [out1 Ho1]].
  destruct (m w) as [[a|] w1]; simpl in *; [|by eauto].
  destruct (Hk a w1) as [[used2 Hu2] [out2 Ho2]]. split.
  - exists (used1 ++ used2). by rewrite <- app_assoc, <- Hu2.
  - exists (out1 ++ out2). by rewrite app_assoc, <- Ho1.
Qed.

Ltac orderly :=
  repeat first
    [ apply orderly_write | apply orderly_question | apply orderly_get_books
    | apply orderly_set_books | apply orderly_post_increment
    | apply orderly_rl_close | apply orderly_ret
    | apply orderly_bind; [|intros ?]
    | progress cbv zeta
    | case_decide
    | case_match ].

Lemma orderly_listBooks arr : orderly (listBooks (nonint:=nonint) arr).
Proof. unfold listBooks. orderly. Qed.

Lemma orderly_cmdAdd : orderly (cmdAdd Number trim).
Proof using Type. clear ToString. unfold cmdAdd. orderly. Qed.

Lemma orderly_cmdFind arg : orderly (cmdFind ToString toLowerCase arg).
Proof using Type.
  clear Number. unfold cmdFind. orderly. apply orderly_listBooks.
Qed.

Lemma orderly_cmdUpdate arg : orderly (cmdUpdate Number ToString trim arg).
Proof. unfold cmdUpdate. orderly. Qed.

Lemma orderly_cmdRemove arg : orderly (cmdRemove Number arg).
Proof using Type. clear ToString. unfold cmdRemove. orderly. Qed.

Lemma orderly_cmdClear : orderly (cmdClear (nonint:=nonint) trim toLowerCase).
Proof using Type. clear Number ToString. unfold cmdClear. orderly. Qed.

Lemma orderly_handleLine line : orderly (handleLine Number ToString trim split
    toLowerCase line).
Proof.
  unfold handleLine, printHelp. orderly;
    first [ apply orderly_listBooks | apply orderly_cmdAdd
          | apply orderly_cmdFind | apply orderly_cmdUpdate
          | apply orderly_cmdRemove | apply orderly_cmdClear ].
Qed.

Lemma orderly_on_event w :
  (∃ used, stdin w = used ++ stdin (on_event Number ToString trim split
      toLowerCase w)) ∧
  (∃ out, console (on_event Number ToString trim split toLowerCase w) = console
      w ++ out).
Proof.
  unfold on_event. destruct (closed w).
  { split; [by exists [] | exists []; by rewrite app_nil_r]. }
  destruct (stdin w) as [|line rest] eqn:Hin.
  { split; [exists []; simpl; by rewrite Hin | by exists [Goodbye]]. }
  destruct (orderly_handleLine line
              (mkWorld (books w) (nextId w) rest (console w) false))
    as [[used Hu] [out Ho]].
  cbn [stdin console] in Hu, Ho.
  split; [exists (line :: used); simpl; f_equal; exact Hu | by exists out].
Qed.

(** What is left of the input after an event: nothing is put back, and
    an open session facing a line takes at least that line. *)
Lemma on_event_consumes w :
  closed (on_event Number ToString trim split toLowerCase w) = true ∨
  length (stdin (on_event Number ToString trim split toLowerCase w)) < length
      (stdin w).
Proof.
  unfold on_event. destruct (closed w) eqn:Hc; [by left|].
  destruct (stdin w) as [|line rest] eqn:Hin; [by left|]. right.
  destruct (orderly_handleLine line
              (mkWorld (books w) (nextId w) rest (console w) false))
    as [[used Hu] _].
  cbn [stdin] in Hu. simpl. rewrite Hu at 2. rewrite length_app. lia.
Qed.

(** X22.  The session always ends: once more events have been handled
    than the input has lines, the interface is closed, whatever the lines
    are. *)
Theorem session_closes w (n : nat) :
  length (stdin w) < n → closed (session Number ToString trim split toLowerCase
      n w) = true.
Proof.
  revert w. induction n as [|n IH]; intros w Hlen; [lia|]. simpl.
  destruct (on_event_consumes w) as [Hc | Hlt].
  - by rewrite session_closed.
  - apply IH. lia.
Qed.

(** X23.  A session reads its input front to back and only ever adds to
    its output: after any number of events the lines still pending are a
    suffix of the input, and what was written before is a prefix of what
    is written now. *)
Theorem session_orderly w (n : nat) :
  (∃ used, stdin w = used ++ stdin (session Number ToString trim split
      toLowerCase n w)) ∧
  (∃ out, console (session Number ToString trim split toLowerCase n w) =
      console w ++ out).
Proof.
  revert w. induction n as [|n IH]; intros w; simpl.
  - split; [by exists [] | exists []; by rewrite app_nil_r].
  - destruct (orderly_on_event w) as [[used1 Hu1] [out1 Ho1]].
    destruct (IH (on_event Number ToString trim split toLowerCase w)) as
        [[used2 Hu2] [out2 Ho2]].
    split.
    + exists (used1 ++ used2). by rewrite <- app_assoc, <- Hu2.
    + exists (out1 ++ out2). by rewrite app_assoc, <- Ho1.
Qed.

(** *** Searching *)

Lemma prefix_refl s : String.prefix s s = true.
Proof.
  induction s as [|c s IH]; [done|]. simpl.
  by destruct (Ascii.ascii_dec c c).
Qed.

Lemma includes_refl s : includes s s = true.
Proof.
  destruct s as [|c s]; [done|].
  change (includes (String c s) (String c s))
    with (if String.prefix (String c s) (String c s) then true
          else includes s (String c s)).
  by rewrite prefix_refl.
Qed.

Lemma filter_sublist {A} (f : A → bool) (l : list A) :
  List.filter f l `sublist_of` l.
Proof.
  induction l as [|x l IH]; simpl; [constructor|].
  destruct (f x); by constructor.
Qed.

(** X24.  [findBooks] answers books of the store, in their order, and
    misses no book whose title or author is the term up to letter case:
    a book with a title, or an author, that [toLowerCase] maps to the
    same string as the term is among the results.  [toLowerCase] is the
    one of the language, whatever it is. *)
Theorem findBooks_spec (term : string) bs :
  findBooks ToString toLowerCase term bs `sublist_of` bs ∧
  (∀ b, b ∈ bs → title b ≠ "" →
        toLowerCase term = toLowerCase (title b) →
        b ∈ findBooks ToString toLowerCase term bs) ∧
  (∀ b, b ∈ bs → author b ≠ "" →
        toLowerCase term = toLowerCase (author b) →
        b ∈ findBooks ToString toLowerCase term bs).
Proof using Type.
  clear Number. unfold findBooks. cbv zeta. split_and!.
  - apply filter_sublist.
  - intros b Hb Ht Hterm. apply list_elem_of_In, filter_In.
    split; [by apply list_elem_of_In|]. unfold matches.
    rewrite truthy_string, decide_False by done.
    by rewrite Hterm, includes_refl.
  - intros b Hb Ha Hterm. apply list_elem_of_In, filter_In.
    split; [by apply list_elem_of_In|]. unfold matches.
    rewrite (truthy_string (author b)), decide_False by done.
    rewrite Hterm, includes_refl. by rewrite orb_true_r.
Qed.

(** *** The seed of the counter *)

Lemma foldl_max_in (a : Z) (l : list Z) : foldl Z.max a l ∈ a :: l.
Proof.
  revert a. induction l as [|y l IH]; intros a; simpl; [by left|].
  specialize (IH (Z.max a y)). apply elem_of_cons in IH as [-> | IH].
  - destruct (Z.max_spec a y) as [[_ ->] | [_ ->]]; [right; left | left].
  - by do 2 right.
Qed.

(** X25.  The seed of the counter is 1 for an empty list of books and is
    otherwise the greatest id plus one: above the id of every book, and
    one more than the id of some book. *)
Theorem seedNextId_spec bs :
  (bs = [] → seedNextId bs = 1%Z) ∧
  (∀ b, b ∈ bs → (id b < seedNextId bs)%Z) ∧
  (bs ≠ [] → ∃ b, b ∈ bs ∧ seedNextId bs = (id b + 1)%Z).
Proof using Type.
  clear Number ToString. split_and!.
  - by intros ->.
  - intros b Hb.
    apply (seeded_below_counter (mkWorld bs (seedNextId bs) [] [] false));
      done.
  - intros Hne. unfold seedNextId.
    destruct bs as [|b0 bs]; [done|].
    pose proof (foldl_max_in (id b0) (id <$> bs)) as Hin.
    change (id b0 :: (id <$> bs)) with (id <$> b0 :: bs) in Hin.
    apply list_elem_of_fmap in Hin as (b & Heq & Hb).
    exists b. split; [done|]. simpl. f_equal. exact Heq.
Qed.

(** *** [add], then [remove]; [add] cut short *)

(** X26.  Removing the book just added gives the list of books back but
    not the id: after an [add] with a title that is not empty once
    trimmed, and then [remove] of the id it assigned, the books are as
    before the [add], and the counter stays one higher. *)
Theorem add_then_remove w (t a y s : string) (rest : list string)
    (arg : string) :
  below_counter w →
  stdin w = t :: a :: y :: s :: rest → trim t ≠ "" →
  Number arg = Int (nextId w) → nextId w ≠ 0%Z →
  let w1 := (cmdAdd Number trim w).2 in
  let w2 := (cmdRemove Number arg w1).2 in
  books w2 = books w ∧ nextId w2 = (nextId w + 1)%Z.
Proof using Type.
  clear ToString. intros Hbelow Hin Ht Hx Hz w1 w2. subst w2 w1.
  rewrite (cmdAdd_adds _ _ _ _ _ _ _ _ Hin Ht). cbn [snd].
  set (book := book_of_answers _ _ _ _ _ _ _).
  set (w1 := mkWorld _ _ _ _ _).
  assert (first_book_with_id (books w1) (nextId w) (length (books w)) book)
    as Hfirst.
  { split_and!; [by apply list_lookup_middle | done |].
    intros j b' Hj Hlt. simpl in Hj. rewrite lookup_app_l in Hj by done.
    apply list_elem_of_lookup_2, Hbelow in Hj. lia. }
  assert (number_truthy (Number arg) = true) as Htruthy.
  { rewrite Hx. simpl. apply negb_true_iff. by apply Z.eqb_neq. }
  pose proof (findIndex_first _ _ _ _ Hfirst) as Hf. rewrite <- Hx in Hf.
  destruct Hfirst as (Hidx & _).
  rewrite (cmdRemove_found _ _ _ _ Htruthy Hf Hidx).
  subst w1. cbn [snd books nextId]. split; [|done].
  by rewrite delete_middle, app_nil_r.
Qed.

(** X27.  [add] is all or nothing.  When the input ends before the
    fourth answer, the title given not being empty once trimmed, no book
    is added and no id is used up: the command is left waiting, the
    interface closes, and the store is as before. *)
Theorem cmdAdd_cut_short w :
  length (stdin w) < 4 →
  (∀ t rest, stdin w = t :: rest → trim t ≠ "") →
  let w' := (cmdAdd Number trim w).2 in
  (cmdAdd Number trim w).1 = None ∧
  books w' = books w ∧ nextId w' = nextId w ∧
  stdin w' = [] ∧ closed w' = true ∧
  last (console w') = Some Goodbye.
Proof using Type.
  clear ToString. intros Hlen Htitle w'. subst w'.
  unfold cmdAdd, bind, question, write, hangup, push.
  destruct (stdin w) as [|t [|a [|y [|s rest]]]] eqn:Hin;
    cbn [stdin books nextId console closed fst snd];
    try (simpl in Hlen; lia);
    try (rewrite (truthy_string (trim t)),
           decide_False by (by eapply Htitle));
    cbn [stdin books nextId console closed fst snd];
    by rewrite last_snoc.
Qed.

End Properties.

Lemma cmdClear_spec_witness :
  let w := start (nonint:=Empty_set) ["  YES "; "list"] in
  stdin w = "  YES " :: ["list"] ∧
  books (cmdClear trimAscii toLowerCaseAscii w).2 = [] ∧
  nextId (cmdClear trimAscii toLowerCaseAscii w).2 = 3%Z.
Proof.
  intros w.
  assert (stdin w = "  YES " :: ["list"]) as Hin by reflexivity.
  destruct (cmdClear_spec trimAscii toLowerCaseAscii w _ _ Hin)
    as (_ & Hn & _ & Hyes & _).
  split_and!; [exact Hin | | exact Hn].
  apply Hyes. reflexivity.
Defined.

Lemma cmdUpdate_spec_witness :
  let w := start (nonint:=Empty_set) ["  "; "Bob Martin"; ""; "0132350882"] in
  let b := mkBook 2%Z "Clean Code" "Robert C. Martin" (Some (Int 2008)) None in
  NumberDec "2" = Int (id b) ∧ id b ≠ 0%Z ∧
  first_book_with_id (books w) (id b) 1 b ∧
  stdin w = ["  "; "Bob Martin"; ""; "0132350882"] ∧
  ∃ b', books (cmdUpdate NumberDec ToStringDec trimAscii "2" w).2 =
          <[1 := b']> sample_books ∧
        title b' = "Clean Code" ∧ author b' = "Bob Martin" ∧
        year b' = Some (Int 2008) ∧ isbn b' = Some "0132350882".
Proof.
  intros w b.
  assert (NumberDec "2" = Int (id b)) as Hx by reflexivity.
  assert (id b ≠ 0%Z) as Hz by discriminate.
  assert (first_book_with_id (books w) (id b) 1 b) as Hfirst.
  { split_and!; [reflexivity | reflexivity |].
    intros [|j] b' Hj Hlt; [|lia]. simpl in Hj. by simplify_eq. }
  assert (stdin w = ["  "; "Bob Martin"; ""; "0132350882"]) as Hin
    by reflexivity.
  split_and!; [exact Hx | exact Hz | exact Hfirst | exact Hin |].
  destruct (cmdUpdate_spec NumberDec ToStringDec trimAscii "2" w 1 b _ _ _ _ _
              Hx Hz Hfirst Hin)
    as (b' & _ & Hb & _ & _ & _ & _ & Ht & Ha & Hy & Hs & _).
  exists b'. split_and!; [exact Hb | exact Ht | exact Ha | exact Hy | exact Hs].
Defined.

Lemma cmdUpdate_refused_witness :
  let w := start (nonint:=Empty_set) ["list"] in
  (number_truthy (NumberDec "7") = false ∨
   (∀ b, b ∈ books w → NumberDec "7" ≠ Int (id b))) ∧
  books (cmdUpdate NumberDec ToStringDec trimAscii "7" w).2 = sample_books ∧
  stdin (cmdUpdate NumberDec ToStringDec trimAscii "7" w).2 = ["list"].
Proof.
  intros w.
  assert (number_truthy (NumberDec "7") = false ∨
          (∀ b, b ∈ books w → NumberDec "7" ≠ Int (id b))) as Hrefused.
  { right. intros b Hb. simpl in Hb.
    apply elem_of_cons in Hb as [-> | Hb]; [discriminate|].
    apply list_elem_of_singleton in Hb as ->. discriminate. }
  destruct (cmdUpdate_refused NumberDec ToStringDec trimAscii "7" w Hrefused)
    as (_ & Hb & _ & Hin & _).
  split_and!; [exact Hrefused | exact Hb | exact Hin].
Defined.

Lemma session_ids_distinct_witness :
  let w0 := start (nonint:=Empty_set)
              ["add"; "Dune"; ""; ""; ""; "remove 1"; "add"; "Emma"; "";
               ""; ""] in
  nextId w0 = seedNextId (books w0) ∧ NoDup (ids w0) ∧
  ids (session NumberDec ToStringDec trimAscii splitAscii toLowerCaseAscii 3
      w0) = [2; 3; 4]%Z ∧
  NoDup (ids (session NumberDec ToStringDec trimAscii splitAscii
      toLowerCaseAscii 3 w0)).
Proof.
  intros w0.
  assert (nextId w0 = seedNextId (books w0)) as Hseed by reflexivity.
  assert (NoDup (ids w0)) as Hnd.
  { apply (bool_decide_unpack _). vm_compute. exact I. }
  split_and!; [exact Hseed | exact Hnd | reflexivity |].
  exact (session_ids_distinct NumberDec ToStringDec trimAscii splitAscii
      toLowerCaseAscii w0 3 Hseed Hnd).
Defined.

Lemma handleLine_read_only_witness :
  let w := start (nonint:=Empty_set) [] in
  (command_word trimAscii splitAscii toLowerCaseAscii "  FIND clean" ∉ ["add";
      "update"; "remove"; "clear"]) ∧
  books (handleLine NumberDec ToStringDec trimAscii splitAscii toLowerCaseAscii
      "  FIND clean" w).2 = sample_books.
Proof.
  intros w.
  assert (command_word trimAscii splitAscii toLowerCaseAscii "  FIND clean" ∉
      ["add"; "update"; "remove"; "clear"])
    as Hc.
  { apply (bool_decide_unpack _). vm_compute. exact I. }
  split; [exact Hc|].
  apply (handleLine_read_only NumberDec ToStringDec trimAscii splitAscii
      toLowerCaseAscii _ w Hc).
Defined.

Lemma exit_ends_session_witness :
  let w := start (nonint:=Empty_set) [" Exit "; "clear"; "yes"] in
  closed w = false ∧ stdin w = " Exit " :: ["clear"; "yes"] ∧
  command_word trimAscii splitAscii toLowerCaseAscii " Exit " = "exit" ∧
  books (session NumberDec ToStringDec trimAscii splitAscii toLowerCaseAscii 3
      w) = sample_books ∧
  stdin (session NumberDec ToStringDec trimAscii splitAscii toLowerCaseAscii 3
      w) = ["clear"; "yes"].
Proof.
  intros w.
  assert (closed w = false) as Hopen by reflexivity.
  assert (stdin w = " Exit " :: ["clear"; "yes"]) as Hin by reflexivity.
  assert (command_word trimAscii splitAscii toLowerCaseAscii " Exit " = "exit")
      as Hc by reflexivity.
  split_and!; [exact Hopen | exact Hin | exact Hc | |].
  - by rewrite (exit_ends_session NumberDec ToStringDec trimAscii splitAscii
      toLowerCaseAscii w _ _ 2 Hopen Hin Hc).
  - by rewrite (exit_ends_session NumberDec ToStringDec trimAscii splitAscii
      toLowerCaseAscii w _ _ 2 Hopen Hin Hc).
Defined.

Lemma session_closes_witness :
  let w := start (nonint:=Empty_set) ["list"; "add"; "Dune"] in
  length (stdin w) < 4 ∧ closed (session NumberDec ToStringDec trimAscii
      splitAscii toLowerCaseAscii 4 w) = true.
Proof.
  intros w.
  assert (length (stdin w) < 4) as Hlen by (vm_compute; lia).
  split; [exact Hlen|].
  exact (session_closes NumberDec ToStringDec trimAscii splitAscii
      toLowerCaseAscii w 4 Hlen).
Defined.

Lemma add_then_remove_witness :
  let w := start (nonint:=Empty_set) ["Dune"; ""; ""; ""] in
  below_counter w ∧ stdin w = ["Dune"; ""; ""; ""] ∧ trimAscii "Dune" ≠ "" ∧
  NumberDec "3" = Int (nextId w) ∧ nextId w ≠ 0%Z ∧
  books (cmdRemove NumberDec "3" (cmdAdd NumberDec trimAscii w).2).2 =
      sample_books ∧
  nextId (cmdRemove NumberDec "3" (cmdAdd NumberDec trimAscii w).2).2 = 4%Z.
Proof.
  intros w.
  assert (below_counter w) as Hbelow.
  { intros b Hb. simpl in Hb.
    apply elem_of_cons in Hb as [-> | Hb]; [reflexivity|].
    apply list_elem_of_singleton in Hb as ->. reflexivity. }
  assert (stdin w = ["Dune"; ""; ""; ""]) as Hin by reflexivity.
  assert (trimAscii "Dune" ≠ "") as Ht by discriminate.
  assert (NumberDec "3" = Int (nextId w)) as Hx by reflexivity.
  assert (nextId w ≠ 0%Z) as Hz by discriminate.
  split_and!; [exact Hbelow | exact Hin | exact Ht | exact Hx | exact Hz | |];
    apply (add_then_remove NumberDec trimAscii w _ _ _ _ _ "3" Hbelow Hin Ht Hx
        Hz).
Defined.

Lemma cmdAdd_cut_short_witness :
  let w := start (nonint:=Empty_set) ["Dune"; "Frank Herbert"] in
  length (stdin w) < 4 ∧
  (∀ t rest, stdin w = t :: rest → trimAscii t ≠ "") ∧
  (cmdAdd NumberDec trimAscii w).1 = None ∧
  books (cmdAdd NumberDec trimAscii w).2 = sample_books ∧
  nextId (cmdAdd NumberDec trimAscii w).2 = 3%Z.
Proof.
  intros w.
  assert (length (stdin w) < 4) as Hlen by (vm_compute; lia).
  assert (∀ t rest, stdin w = t :: rest → trimAscii t ≠ "") as Htitle.
  { intros t rest [= <- _]. discriminate. }
  destruct (cmdAdd_cut_short NumberDec trimAscii w Hlen Htitle)
    as (Hres & Hb & Hn & _).
  split_and!; [exact Hlen | exact Htitle | exact Hres | exact Hb | exact Hn].
Defined.

End BookStoreExtra.
